(** * files/multipartfile.go: a multipart body read as a lazy file tree

    Shallow embedding of [newFileFromPart], [multipartIterator.Next],
    [peekReader.NextPart], [peekReader.put] and [NewFileFromPartReader],
    together with the pieces of Go's standard library they call
    ([path.Split], [path.Clean], [strings.HasPrefix], [url.QueryUnescape]).

    Go strings are byte strings and are modelled by [string]; the one
    [*multipart.Reader] and the [*peekReader] wrapped around it are the two
    cells of an explicit [Store] that every iterator of a traversal shares. *)

From Stdlib Require Import List Ascii String Bool Arith ZArith Lia.
Import ListNotations.

Local Open Scope string_scope.
Local Open Scope list_scope.
Local Open Scope nat_scope.

Set Warnings "-register-all".

(** ** Byte strings *)

Module GoString.

Definition slash : ascii := "/"%char.
Definition dot : ascii := "."%char.

(** [s[i:]] *)
Fixpoint drop (i : nat) (s : string) : string :=
  match i, s with
  | 0, _ => s
  | S i', String _ s' => drop i' s'
  | S _, EmptyString => EmptyString
  end.

(** [s[:i]] *)
Fixpoint take (i : nat) (s : string) : string :=
  match i, s with
  | 0, _ => EmptyString
  | S i', String c s' => String c (take i' s')
  | S _, EmptyString => EmptyString
  end.

(** [strings.LastIndexByte]: [None] stands for -1. *)
Fixpoint LastIndexByte (s : string) (c : ascii) : option nat :=
  match s with
  | EmptyString => None
  | String a s' =>
      match LastIndexByte s' c with
      | Some i => Some (S i)
      | None => if Ascii.eqb a c then Some 0 else None
      end
  end.

(** [strings.HasPrefix(s, prefix)] *)
Definition HasPrefix (s pre : string) : bool := String.prefix pre s.

Fixpoint contains (c : ascii) (s : string) : bool :=
  match s with
  | EmptyString => false
  | String a s' => Ascii.eqb a c || contains c s'
  end.

End GoString.

(** ** package path *)

Module path.
Import GoString.

(** [path.Split]: everything up to and including the last slash, and the
    rest. *)
Definition Split (p : string) : string * string :=
  match LastIndexByte p slash with
  | Some i => (take (S i) p, drop (S i) p)
  | None => (EmptyString, p)
  end.

(** The output buffer of [Clean] ([lazybuf]) is kept as the list of the
    [w] bytes written so far, last byte first. *)
Definition lazybuf := list ascii.

Definition buf_string (out : lazybuf) : string :=
  string_of_list_ascii (rev out).

(** [out.w--; for out.w > dotdot && out.index(out.w) != '/' { out.w-- }]:
    [last] is the byte at index [out.w], the one dropped last. *)
Fixpoint backtrack (last : ascii) (out : lazybuf) (dotdot : nat) : lazybuf :=
  match out with
  | [] => []
  | c :: out' =>
      if (dotdot <? List.length out) && negb (Ascii.eqb last slash)
      then backtrack c out' dotdot
      else out
  end.

(** The main loop of [Clean] over the unread suffix [path[r:]].  The
    inner loop that copies a path element is the mode [copying = true];
    when it stops at a slash the outer loop skips that slash as an empty
    element, which is done here in the same step. *)
Fixpoint clean_loop (rooted copying : bool) (s : string)
         (out : lazybuf) (dotdot : nat) : lazybuf :=
  match s with
  | EmptyString => out
  | String c s1 =>
      if Ascii.eqb c slash then
        clean_loop rooted false s1 out dotdot
      else if copying then
        clean_loop rooted true s1 (c :: out) dotdot
      else
        let element_ends (t : string) :=
          match t with
          | EmptyString => true
          | String d _ => Ascii.eqb d slash
          end in
        let real_element :=
          let out1 :=
            if (rooted && negb (List.length out =? 1))
               || (negb rooted && negb (List.length out =? 0))
            then slash :: out else out in
          clean_loop rooted true s1 (c :: out1) dotdot in
        if Ascii.eqb c dot then
          if element_ends s1 then
            clean_loop rooted false s1 out dotdot
          else
            match s1 with
            | String d s2 =>
                if Ascii.eqb d dot && element_ends s2 then
                  if dotdot <? List.length out then
                    match out with
                    | l :: out' =>
                        clean_loop rooted false s2 (backtrack l out' dotdot) dotdot
                    | [] => clean_loop rooted false s2 out dotdot
                    end
                  else if negb rooted then
                    let out1 :=
                      if negb (List.length out =? 0) then slash :: out else out in
                    let out2 := dot :: dot :: out1 in
                    clean_loop rooted false s2 out2 (List.length out2)
                  else clean_loop rooted false s2 out dotdot
                else real_element
            | EmptyString => real_element
            end
        else real_element
  end.

(** [path.Clean] *)
Definition Clean (p : string) : string :=
  match p with
  | EmptyString => "."
  | String c p' =>
      let rooted := Ascii.eqb c slash in
      let out :=
        if rooted then clean_loop true false p' [slash] 1
        else clean_loop false false p [] 0 in
      match out with
      | [] => "."
      | _ => buf_string out
      end
  end.

(** The rest of a path after an element: nothing, or a slash and more. *)
Definition at_element_end (t : string) : Prop :=
  t = "" \/ exists t', t = String slash t'.

(** The slash [Clean] writes before an element unless the buffer is empty. *)
Definition separator (out : lazybuf) : lazybuf :=
  match out with [] => [] | _ :: _ => [slash] end.

End path.

(** ** package net/url *)

Module url.

Definition ishex (c : ascii) : bool :=
  let n := nat_of_ascii c in
  ((48 <=? n) && (n <=? 57)) || ((97 <=? n) && (n <=? 102))
  || ((65 <=? n) && (n <=? 70)).

Definition unhex (c : ascii) : nat :=
  let n := nat_of_ascii c in
  if (48 <=? n) && (n <=? 57) then n - 48
  else if (97 <=? n) && (n <=? 102) then n - 97 + 10
  else if (65 <=? n) && (n <=? 70) then n - 65 + 10
  else 0.

(** First pass of [unescape]: every [%] is followed by two hex digits. *)
Fixpoint well_escaped (s : string) : bool :=
  match s with
  | EmptyString => true
  | String c s1 =>
      if Ascii.eqb c "%" then
        match s1 with
        | String a (String b s3) => ishex a && ishex b && well_escaped s3
        | _ => false
        end
      else well_escaped s1
  end.

(** Second pass of [unescape] in query-component mode. *)
Fixpoint decode (s : string) : string :=
  match s with
  | EmptyString => EmptyString
  | String c s1 =>
      if Ascii.eqb c "%" then
        match s1 with
        | String a (String b s3) =>
            String (ascii_of_nat (unhex a * 16 + unhex b)) (decode s3)
        | _ => EmptyString
        end
      else if Ascii.eqb c "+" then String " " (decode s1)
      else String c (decode s1)
  end.

(** [url.QueryUnescape]; [None] is the [EscapeError] result. *)
Definition QueryUnescape (s : string) : option string :=
  if well_escaped s then Some (decode s) else None.

End url.

(** ** package mime

    [mime.ParseMediaType] is a parameter of the development (see
    [files.WithMime]).  The function below is the instance the worked
    examples run with: it takes the text before the first semicolon, lowers
    and trims it, and checks it the way [checkMediaTypeDisposition] does;
    the parameters after the semicolon are not examined.  The error codes
    number the messages of [checkMediaTypeDisposition]. *)

Module mime.

Definition isTSpecial (c : ascii) : bool :=
  GoString.contains c "()<>@,;:\/[]?=" || (nat_of_ascii c =? 34).

Definition isTokenChar (c : ascii) : bool :=
  let n := nat_of_ascii c in
  (32 <? n) && (n <? 127) && negb (isTSpecial c).

(** [consumeToken] *)
Fixpoint consumeToken (v : string) : string * string :=
  match v with
  | EmptyString => (EmptyString, EmptyString)
  | String c v' =>
      if isTokenChar c then
        let (token, rest) := consumeToken v' in (String c token, rest)
      else (EmptyString, v)
  end.

Definition checkMediaTypeDisposition (s : string) : option nat :=
  let (typ, rest) := consumeToken s in
  if String.eqb typ "" then Some 1
  else
    match rest with
    | EmptyString => None
    | String c rest1 =>
        if negb (Ascii.eqb c "/") then Some 2
        else
          let (subtype, rest2) := consumeToken rest1 in
          if String.eqb subtype "" then Some 3
          else if negb (String.eqb rest2 "") then Some 4
          else None
    end.

Definition isSpace (c : ascii) : bool :=
  let n := nat_of_ascii c in
  ((9 <=? n) && (n <=? 13)) || (n =? 32).

Definition toLower (c : ascii) : ascii :=
  let n := nat_of_ascii c in
  if (65 <=? n) && (n <=? 90) then ascii_of_nat (n + 32) else c.

Fixpoint before_semicolon (v : string) : string :=
  match v with
  | EmptyString => EmptyString
  | String c v' => if Ascii.eqb c ";" then EmptyString else String c (before_semicolon v')
  end.

Fixpoint trimLeft (v : string) : string :=
  match v with
  | String c v' => if isSpace c then trimLeft v' else v
  | EmptyString => EmptyString
  end.

Fixpoint lower (v : string) : string :=
  match v with
  | EmptyString => EmptyString
  | String c v' => String (toLower c) (lower v')
  end.

Definition reverse (v : string) : string :=
  string_of_list_ascii (rev (list_ascii_of_string v)).

Definition TrimSpace (v : string) : string :=
  reverse (trimLeft (reverse (trimLeft v))).

Definition ParseMediaType (v : string) : string * option nat :=
  let mediatype := TrimSpace (lower (before_semicolon v)) in
  match checkMediaTypeDisposition mediatype with
  | Some code => (EmptyString, Some code)
  | None => (mediatype, None)
  end.

End mime.

(** ** package files *)

Module files.
Import GoString.

Definition multipartFormdataType := "multipart/form-data".
Definition multipartMixedType := "multipart/mixed".
Definition applicationDirectory := "application/x-directory".
Definition applicationSymlink := "application/symlink".
Definition applicationFile := "application/octet-stream".
Definition contentTypeHeader := "Content-Type".

(** Go [error] values.  The package's sentinels are told apart by
    identity; what [mime], [io] and [multipart] raise cannot be one of
    them and is kept opaque under [LibError]. *)
Inductive error : Type :=
| io_EOF
| ErrPartOutsideParent
| ErrPartInChildTree
| ErrNotDirectory
| errors_New (text : string)
| LibError (code : nat).

Definition error_eqb (a b : error) : bool :=
  match a, b with
  | io_EOF, io_EOF => true
  | ErrPartOutsideParent, ErrPartOutsideParent => true
  | ErrPartInChildTree, ErrPartInChildTree => true
  | ErrNotDirectory, ErrNotDirectory => true
  | errors_New s, errors_New t => String.eqb s t
  | LibError m, LibError n => m =? n
  | _, _ => false
  end.

(** A [*multipart.Part], as far as this file looks at it: the value of
    [FileName()], the lookup [Header.Get], and what reading the body to
    its end gives (the bytes, or the error the transport raises). *)
Record Part : Type := {
  FileName : string;
  Header_Get : string -> string;
  Body : string;
  ReadErr : option nat
}.

(** [ioutil.ReadAll(part)] *)
Definition ReadAll (p : Part) : string + error :=
  match ReadErr p with
  | Some code => inr (LibError code)
  | None => inl (Body p)
  end.

(** A value of the interface [PartReader]: the [*multipart.Reader]
    itself, or the [*peekReader] that wraps it. *)
Inductive PartReader : Type :=
| RawReader
| PeekReader.

Record MultipartFile : Type := {
  Part_ : option Part;
  Reader : option PartReader;
  Mediatype : string
}.

(** Modelled from the spec: the node variants declared in the package's
    other files ([ReaderFile], and the [Symlink] built by [NewLinkFile]),
    next to the directory node of this file. *)
Inductive Node : Type :=
| ReaderFile (reader : Part) (abspath : string)
| Symlink (Target : string)
| Dir (f : MultipartFile).

(** The underlying part source: the results its next calls to
    [NextPart] give (end of input once they are used up), and how often
    it has been called. *)
Record Source : Type := {
  script : list (Part + error);
  calls : nat
}.

(** [r] is nil or points to the source of the store ([Some tt]); [next]
    is the one slot for a part that was pushed back. *)
Record peekReader : Type := {
  r : option unit;
  next : option Part
}.

(** The objects shared by all iterators of one traversal. *)
Record Store : Type := {
  source : Source;
  peek : peekReader
}.

Definition Source_NextPart (s : Source) : (Part + error) * Source :=
  match script s with
  | [] => (inr io_EOF, {| script := []; calls := S (calls s) |})
  | x :: rest => (x, {| script := rest; calls := S (calls s) |})
  end.

(** [(pr *peekReader) NextPart] *)
Definition peekReader_NextPart (st : Store) : (Part + error) * Store :=
  let pr := peek st in
  match next pr with
  | Some p => (inl p, {| source := source st; peek := {| r := r pr; next := None |} |})
  | None =>
      match r pr with
      | None => (inr io_EOF, st)
      | Some _ =>
          let (res, src) := Source_NextPart (source st) in
          match res with
          | inr io_EOF =>
              (res, {| source := src; peek := {| r := None; next := next pr |} |})
          | _ => (res, {| source := src; peek := pr |})
          end
      end
  end.

(** [(pr *peekReader) put] *)
Definition put (p : Part) (st : Store) : option error * Store :=
  let pr := peek st in
  match next pr with
  | Some _ => (Some (errors_New "cannot put multiple parts"), st)
  | None => (None, {| source := source st; peek := {| r := r pr; next := Some p |} |})
  end.

Definition protocol_violation : error := errors_New "cannot put multiple parts".

(** A call [reader.NextPart()] through the interface. *)
Definition NextPart (reader : PartReader) (st : Store) : (Part + error) * Store :=
  match reader with
  | PeekReader => peekReader_NextPart st
  | RawReader =>
      let (res, src) := Source_NextPart (source st) in
      (res, {| source := src; peek := peek st |})
  end.

Definition isDirectory (mediatype : string) : bool :=
  String.eqb mediatype multipartFormdataType
  || String.eqb mediatype applicationDirectory.

(** [(f *MultipartFile) fileName] *)
Definition fileName_of (p : option Part) : string :=
  match p with
  | None => ""
  | Some part =>
      match url.QueryUnescape (FileName part) with
      | Some filename => filename
      | None => FileName part
      end
  end.

Definition fileName (f : MultipartFile) : string := fileName_of (Part_ f).

(** [NewFileFromPartReader]: the store's [peekReader] cell is the object
    allocated here. *)
Definition NewFileFromPartReader (mediatype : string) (st : Store)
  : (MultipartFile + error) * Store :=
  if negb (isDirectory mediatype) then (inr ErrNotDirectory, st)
  else
    (inl {| Part_ := None; Reader := Some PeekReader; Mediatype := mediatype |},
     {| source := source st; peek := {| r := Some tt; next := None |} |}).

Section WithMime.

(** [mime.ParseMediaType], reduced to the media type and the error. *)
Variable ParseMediaType : string -> string * option nat.

Definition normalize (d : string) : string :=
  let d := path.Clean d in
  if String.eqb d "." then "" else d.

Definition newFileFromPart (parent : string) (part : Part) (reader : option PartReader)
  : string * option Node * option error :=
  let (dir0, base) := path.Split (fileName_of (Some part)) in
  let dir := normalize dir0 in
  let parent := normalize parent in
  if negb (String.eqb dir parent) then
    if HasPrefix dir parent then ("", None, Some ErrPartInChildTree)
    else ("", None, Some ErrPartOutsideParent)
  else
    let contentType := Header_Get part contentTypeHeader in
    let file := (base, Some (ReaderFile part (Header_Get part "abspath")), None) in
    if String.eqb contentType applicationSymlink then
      match ReadAll part with
      | inr err => ("", None, Some err)
      | inl out => (base, Some (Symlink out), None)
      end
    else if String.eqb contentType "" || String.eqb contentType applicationFile then
      file
    else
      match ParseMediaType contentType with
      | (_, Some code) => ("", None, Some (LibError code))
      | (mediatype, None) =>
          if negb (isDirectory mediatype) then file
          else (base,
                Some (Dir {| Part_ := Some part; Reader := reader; Mediatype := mediatype |}),
                None)
      end.

Record multipartIterator : Type := {
  f : MultipartFile;
  curFile : option Node;
  curName : string;
  err : option error
}.

(** [(f *MultipartFile) Entries] *)
Definition Entries (f : MultipartFile) : multipartIterator :=
  {| f := f; curFile := None; curName := ""; err := None |}.

(** How the [for] loop of [Next] is left: by one of its [return]s, or by
    [break] with the part read too far. *)
Inductive loop_exit : Type :=
| Return (ok : bool) (it : multipartIterator)
| Break (part : Part).

(** The loop of [Next], at most [fuel] rounds. *)
Fixpoint Next_loop (fuel : nat) (reader : PartReader) (it : multipartIterator)
         (st : Store) : option (loop_exit * Store) :=
  match fuel with
  | 0 => None
  | S fuel' =>
      match NextPart reader st with
      | (inr e, st1) =>
          if error_eqb e io_EOF then Some (Return false it, st1)
          else Some (Return false
                       {| f := f it; curFile := curFile it;
                          curName := curName it; err := Some e |}, st1)
      | (inl part, st1) =>
          match newFileFromPart (fileName (f it)) part (Reader (f it)) with
          | (name, cf, e) =>
              match e with
              | Some ErrPartOutsideParent => Some (Break part, st1)
              | Some ErrPartInChildTree => Next_loop fuel' reader it st1
              | _ =>
                  Some (Return (match e with None => true | Some _ => false end)
                          {| f := f it; curFile := cf; curName := name; err := e |},
                        st1)
              end
          end
      end
  end.

(** The lines of [Next] after the loop: "we read too much, try to fix
    this". *)
Definition undo (reader : PartReader) (part : Part) (it : multipartIterator)
           (st : Store) : bool * multipartIterator * Store :=
  match reader with
  | RawReader =>
      (false,
       {| f := f it; curFile := curFile it; curName := curName it;
          err := Some (errors_New "cannot undo NextPart") |},
       st)
  | PeekReader =>
      let (e, st1) := put part st in
      (false,
       {| f := f it; curFile := curFile it; curName := curName it; err := e |},
       st1)
  end.

(** Each round of the loop that goes on has taken a part from the
    buffer slot or from the source. *)
Definition rounds (st : Store) : nat :=
  2 + List.length (script (source st)).

Definition Next_fuel (fuel : nat) (it : multipartIterator) (st : Store)
  : option (bool * multipartIterator * Store) :=
  match Reader (f it) with
  | None => Some (false, it, st)
  | Some reader =>
      match Next_loop fuel reader it st with
      | None => None
      | Some (Return ok it1, st1) => Some (ok, it1, st1)
      | Some (Break part, st1) => Some (undo reader part it st1)
      end
  end.

(** [(it *multipartIterator) Next] *)
Definition Next (it : multipartIterator) (st : Store)
  : option (bool * multipartIterator * Store) :=
  Next_fuel (rounds st) it st.

(** [(it *multipartIterator) Err] *)
Definition Err (it : multipartIterator) : option error := err it.

(** *** The consumer

    The protocol the package asks of its callers: every directory an
    iterator returns is read to its end before the iterator is advanced
    again. *)

Inductive Kind : Type := KFile | KSymlink | KDirectory.

(** What a traversal has seen: the entries of one directory in the order
    they were returned, each directory with the entries of its own
    iterator. *)
Inductive yielded : Type :=
| Yield (path : string) (kind : Kind) (children : list yielded).

(** The path of an entry named [name] returned by the iterator of [dir]. *)
Definition entry_path (dir name : string) : string :=
  if String.eqb dir "" then name else (dir ++ "/" ++ name)%string.

Definition node_kind (n : Node) : Kind :=
  match n with
  | ReaderFile _ _ => KFile
  | Symlink _ => KSymlink
  | Dir _ => KDirectory
  end.

(** [for it.Next() { ...; if the node is a directory, walk it }], then
    [it.Err()].  [None] only when [fuel] runs out. *)
Fixpoint walk (fuel : nat) (it : multipartIterator) (st : Store)
  : option (list yielded * option error * Store) :=
  match fuel with
  | 0 => None
  | S fuel' =>
      match Next it st with
      | None => None
      | Some (false, it1, st1) => Some ([], Err it1, st1)
      | Some (true, it1, st1) =>
          let p := entry_path (fileName (f it1)) (curName it1) in
          match curFile it1 with
          | None => None
          | Some (Dir d) =>
              match walk fuel' (Entries d) st1 with
              | None => None
              | Some (ys, Some e, st2) => Some ([Yield p KDirectory ys], Some e, st2)
              | Some (ys, None, st2) =>
                  match walk fuel' it1 st2 with
                  | None => None
                  | Some (rest, e, st3) => Some (Yield p KDirectory ys :: rest, e, st3)
                  end
              end
          | Some leaf =>
              match walk fuel' it1 st1 with
              | None => None
              | Some (rest, e, st2) => Some (Yield p (node_kind leaf) [] :: rest, e, st2)
              end
          end
      end
  end.

(** *** Well-formed part sequences

    A part sequence is well formed when it lists a forest of entries in
    pre-order: every directory is announced by a part of its own, followed
    at once by the parts of its entries, and every part is named by the
    path of its directory and a proper name. *)

Inductive tree : Type :=
| Entry (p : Part) (children : list tree).

Fixpoint parts_of (t : tree) : list Part :=
  match t with
  | Entry p cs => p :: flat_map parts_of cs
  end.

(** The kind a part announces by its [Content-Type]; [None] when reading
    the link or parsing the type fails. *)
Definition part_kind (p : Part) : option Kind :=
  let ct := Header_Get p contentTypeHeader in
  if String.eqb ct applicationSymlink then
    match ReadErr p with None => Some KSymlink | Some _ => None end
  else if String.eqb ct "" || String.eqb ct applicationFile then Some KFile
  else
    match ParseMediaType ct with
    | (_, Some _) => None
    | (mt, None) => Some (if isDirectory mt then KDirectory else KFile)
    end.

Definition kind_of (p : Part) : Kind :=
  match part_kind p with Some k => k | None => KFile end.

Definition wf_name (n : string) : bool :=
  negb (String.eqb n "") && negb (contains slash n)
  && negb (String.eqb n ".") && negb (String.eqb n "..").

Definition dir_path (ds : list string) : string := String.concat "/" ds.

(** The directory part of the file names in [ds]: the path and a slash. *)
Definition dir_prefix (ds : list string) : string :=
  match ds with
  | [] => ""
  | _ :: _ => (dir_path ds ++ "/")%string
  end.

Definition base_name (p : Part) : string :=
  snd (path.Split (fileName_of (Some p))).

Fixpoint wf_tree (ds : list string) (t : tree) : bool :=
  match t with
  | Entry p cs =>
      let n := base_name p in
      wf_name n
      && String.eqb (fileName_of (Some p)) (dir_path (ds ++ [n]))
      && match part_kind p with
         | Some KDirectory => forallb (wf_tree (ds ++ [n])) cs
         | Some _ => match cs with [] => true | _ :: _ => false end
         | None => false
         end
  end.

Definition wf_forest (ts : list tree) : bool := forallb (wf_tree []) ts.

Fixpoint shape (t : tree) : yielded :=
  match t with
  | Entry p cs => Yield (fileName_of (Some p)) (kind_of p) (map shape cs)
  end.

Fixpoint trace (y : yielded) : list (string * Kind) :=
  match y with
  | Yield p k cs => (p, k) :: flat_map trace cs
  end.

(** *** Traversal trees

    The directories of the traversal that starts at [root]: [root] itself
    and every directory node some iterator of such a directory returns, in
    whatever state the shared store is. *)
Inductive reachable (root : MultipartFile) : MultipartFile -> Prop :=
| reach_root : reachable root root
| reach_entry (d child : MultipartFile) (it it1 : multipartIterator) (st st1 : Store) :
    reachable root d ->
    f it = d ->
    Next it st = Some (true, it1, st1) ->
    curFile it1 = Some (Dir child) ->
    reachable root child.

End WithMime.

(** The parts a reader can still hand out before its source is asked
    beyond the end of its script. *)
Definition pending (reader : PartReader) (st : Store) : nat :=
  match reader with
  | RawReader => List.length (script (source st))
  | PeekReader =>
      (match next (peek st) with Some _ => 1 | None => 0 end)
      + (match r (peek st) with Some _ => List.length (script (source st)) | None => 0 end)
  end.

Definition set_err (it : multipartIterator) (e : option error) : multipartIterator :=
  {| f := f it; curFile := curFile it; curName := curName it; err := e |}.

(** The directory a part declares, normalized. *)
Definition declared_dir (part : Part) : string :=
  normalize (fst (path.Split (fileName_of (Some part)))).

Definition scope_error (e : option error) : Prop :=
  e = Some ErrPartInChildTree \/ e = Some ErrPartOutsideParent.

(** What the buffer will hand out, in order: the part in the slot, then
    what the source has left, as long as the buffer still holds it. *)
Definition stream (st : Store) : list (Part + error) :=
  (match next (peek st) with Some p => [inl p] | None => [] end)
  ++ (match r (peek st) with Some _ => script (source st) | None => [] end).

(** The parts after the entries of the directory [cur] begin, if there
    are any, with a part that declares a directory whose path is shorter
    than [cur]: a sibling of [cur] or of one of its ancestors. *)
Definition stops (cur : string) (rest : list Part) : Prop :=
  match rest with
  | [] => True
  | q :: _ => String.length (declared_dir q) < String.length cur
  end.

(** Uses of the lookahead buffer, for statements about every later use. *)
Inductive buffer_op : Type :=
| op_put (p : Part)
| op_NextPart.

Definition run_op (o : buffer_op) (st : Store) : Store :=
  match o with
  | op_put p => snd (put p st)
  | op_NextPart => snd (peekReader_NextPart st)
  end.

Definition run_ops (os : list buffer_op) (st : Store) : Store :=
  fold_left (fun s o => run_op o s) os st.

(** A part with the given file name, content type and body, and no other
    header. *)
Definition mkPart (name contentType body : string) : Part :=
  {| FileName := name;
     Header_Get := fun key => if String.eqb key contentTypeHeader then contentType else "";
     Body := body;
     ReadErr := None |}.

(** A store whose source will deliver [ps] and then end. *)
Definition fresh_store (ps : list Part) : Store :=
  {| source := {| script := map inl ps; calls := 0 |};
     peek := {| r := None; next := None |} |}.

End files.

(** ** Sample inputs

    The scenarios of the package's documentation, used for the worked
    examples: a directory [a] with two files, a file [b.txt] next to it, a
    link, and a part whose content type does not parse. *)

Module samples.
Import files.

Definition dir_a : Part := mkPart "a" multipartFormdataType "".
Definition file_ax : Part := mkPart "a/x.txt" applicationFile "x".
Definition file_ay : Part := mkPart "a/y.txt" applicationFile "y".
Definition file_b : Part := mkPart "b.txt" applicationFile "b".
Definition link : Part := mkPart "link" applicationSymlink "../target".
Definition bad : Part := mkPart "bad" "not a media type" "".
Definition html : Part := mkPart "index.html" "text/html; charset=utf-8" "<p>".

(** The root directory [NewFileFromPartReader] returns. *)
Definition root : MultipartFile :=
  {| Part_ := None; Reader := Some PeekReader; Mediatype := multipartFormdataType |}.

(** The directory node made from the part [dir_a]. *)
Definition node_a : MultipartFile :=
  {| Part_ := Some dir_a; Reader := Some PeekReader; Mediatype := multipartFormdataType |}.

(** The store after [NewFileFromPartReader] over a source that will
    deliver [ps]. *)
Definition opened (ps : list Part) : Store :=
  {| source := {| script := map inl ps; calls := 0 |};
     peek := {| r := Some tt; next := None |} |}.

(** The same source with [p] pushed back into the slot. *)
Definition pushed_back (p : Part) (st : Store) : Store :=
  {| source := source st; peek := {| r := r (peek st); next := Some p |} |}.

(** The forest the parts [a], [a/x.txt], [a/y.txt], [link], [index.html],
    [b.txt] list. *)
Definition forest : list tree :=
  [Entry dir_a [Entry file_ax []; Entry file_ay []];
   Entry link []; Entry html []; Entry file_b []].

End samples.

(** ** The rest of the iterator's interface, and other callers *)

Module iterator.
Import files.

(** [(it *multipartIterator) Name] *)
Definition Name (it : multipartIterator) : string := curName it.

(** [(it *multipartIterator) Node] *)
Definition Node_ (it : multipartIterator) : option Node := curFile it.

(** [n] calls of [NextPart] on the buffer, with their results in order. *)
Fixpoint pulls (n : nat) (st : Store) : list (Part + error) * Store :=
  match n with
  | 0 => ([], st)
  | S n' =>
      let (res, st1) := peekReader_NextPart st in
      let (more, st2) := pulls n' st1 in
      (res :: more, st2)
  end.

Definition top_part (t : tree) : Part :=
  match t with Entry p _ => p end.

Section WithMime.

Variable ParseMediaType : string -> string * option nat.

(** The parts left once the leading parts that the classifier reports as
    in-child-tree for the directory [cur] are taken away. *)
Fixpoint skip_child_tree (cur : string) (reader : option PartReader) (ps : list Part)
  : list Part :=
  match ps with
  | [] => []
  | p :: ps' =>
      match snd (newFileFromPart ParseMediaType cur p reader) with
      | Some ErrPartInChildTree => skip_child_tree cur reader ps'
      | _ => ps
      end
  end.

(** A caller that lists one directory and does not open the directories
    it is handed: [for it.Next() { record it.Name() and the kind of
    it.Node() }], then [it.Err()].  [None] only when [fuel] runs out. *)
Fixpoint list_entries (fuel : nat) (it : multipartIterator) (st : Store)
  : option (list (string * Kind) * option error * Store) :=
  match fuel with
  | 0 => None
  | S fuel' =>
      match Next ParseMediaType it st with
      | None => None
      | Some (false, it1, st1) => Some ([], Err it1, st1)
      | Some (true, it1, st1) =>
          match Node_ it1 with
          | None => None
          | Some node =>
              match list_entries fuel' it1 st1 with
              | None => None
              | Some (rest, e, st2) => Some ((Name it1, node_kind node) :: rest, e, st2)
              end
          end
      end
  end.

End WithMime.

End iterator.

(** ** Further sample inputs *)

Module more_samples.
Import files samples.

(** The directory [a] held by a caller that reads from the source
    itself, without the buffer. *)
Definition node_a_raw : MultipartFile :=
  {| Part_ := Some dir_a; Reader := Some RawReader; Mediatype := multipartFormdataType |}.

(** A source whose transport fails once before it delivers [b.txt]. *)
Definition failing : Store :=
  {| source := {| script := [inr (LibError 7); inl file_b]; calls := 0 |};
     peek := {| r := Some tt; next := None |} |}.

(** The store [st] after [n] calls of its source that used up [n]
    results. *)
Definition advanced (n : nat) (st : Store) : Store :=
  {| source := {| script := skipn n (script (source st));
                  calls := n + calls (source st) |};
     peek := peek st |}.

(** The store once its source has reported end-of-input to the buffer. *)
Definition ended (n : nat) : Store :=
  {| source := {| script := []; calls := n |}; peek := {| r := None; next := None |} |}.

End more_samples.

(** ** unixfs/feather/internal/pb: the data type enumeration *)

Module pb.

(** [UnixfsData_DataType] is an [int32]. *)
Definition UnixfsData_DataType := Z.

Definition UnixfsData_Raw : UnixfsData_DataType := 0%Z.
Definition UnixfsData_Directory : UnixfsData_DataType := 1%Z.
Definition UnixfsData_File : UnixfsData_DataType := 2%Z.
Definition UnixfsData_Metadata : UnixfsData_DataType := 3%Z.
Definition UnixfsData_Symlink : UnixfsData_DataType := 4%Z.
Definition UnixfsData_HAMTShard : UnixfsData_DataType := 5%Z.

(** The two Go maps, as the lists of their entries. *)
Definition UnixfsData_DataType_name : list (Z * string) :=
  [(0%Z, "Raw"); (1%Z, "Directory"); (2%Z, "File"); (3%Z, "Metadata");
   (4%Z, "Symlink"); (5%Z, "HAMTShard")].

Definition UnixfsData_DataType_value : list (string * Z) :=
  [("Raw", 0%Z); ("Directory", 1%Z); ("File", 2%Z); ("Metadata", 3%Z);
   ("Symlink", 4%Z); ("HAMTShard", 5%Z)].

(** [v, ok := m[k]] *)
Fixpoint lookup {K V : Type} (eqb : K -> K -> bool) (m : list (K * V)) (k : K)
  : option V :=
  match m with
  | [] => None
  | (k', v) :: m' => if eqb k k' then Some v else lookup eqb m' k
  end.

Definition name_of (n : Z) : option string := lookup Z.eqb UnixfsData_DataType_name n.
Definition value_of (s : string) : option Z :=
  lookup String.eqb UnixfsData_DataType_value s.

End pb.

(** * Properties *)

Import GoString files.

(** ** The library functions on sample inputs *)

(** The table of Go's own test of [path.Clean]. *)
Example Clean_examples :
  map path.Clean
    [""; "abc"; "abc/def"; "a/b/c"; "."; ".."; "../.."; "../../abc"; "/abc"; "/";
     "abc/"; "abc/def/"; "a/b/c/"; "./"; "../"; "../../"; "/abc/";
     "abc//def//ghi"; "//abc"; "///abc"; "//abc//"; "abc//";
     "abc/./def"; "/./abc/def"; "abc/.";
     "abc/def/ghi/../jkl"; "abc/def/../ghi/../jkl"; "abc/def/.."; "abc/def/../..";
     "/abc/def/../.."; "abc/def/../../.."; "/abc/def/../../..";
     "abc/def/../../../ghi/jkl/../../../mno";
     "abc/./../def"; "abc//./../def"; "abc/../../././../def"]
  = ["."; "abc"; "abc/def"; "a/b/c"; "."; ".."; "../.."; "../../abc"; "/abc"; "/";
     "abc"; "abc/def"; "a/b/c"; "."; ".."; "../.."; "/abc";
     "abc/def/ghi"; "/abc"; "/abc"; "/abc"; "abc";
     "abc/def"; "/abc/def"; "abc";
     "abc/def/jkl"; "abc/jkl"; "abc"; ".";
     "/"; ".."; "/";
     "../../mno";
     "def"; "def"; "../../def"].
Proof. reflexivity. Qed.

Example Split_examples :
  map path.Split ["a/x.txt"; "b.txt"; "a/b/"; ""; "/a"]
  = [("a/", "x.txt"); ("", "b.txt"); ("a/b/", ""); ("", ""); ("/", "a")].
Proof. reflexivity. Qed.

Example QueryUnescape_examples :
  map url.QueryUnescape ["a%2Fb+c"; "100%"; "%zz"; "x.txt"; "%41%6a"]
  = [Some "a/b c"; None; None; Some "x.txt"; Some "Aj"].
Proof. reflexivity. Qed.

Example ParseMediaType_examples :
  map mime.ParseMediaType
    ["multipart/form-data"; "Text/Plain ; charset=x"; "not a media type"; "/"; "a/b/c"]
  = [("multipart/form-data", None); ("text/plain", None); ("", Some 2); ("", Some 1);
     ("", Some 4)].
Proof. reflexivity. Qed.

(** ** Strings and paths *)

Section Strings.

Lemma append_assoc (a b c : string) : ((a ++ b) ++ c = a ++ (b ++ c))%string.
Proof. induction a as [|x a IH]; simpl; [reflexivity|now rewrite IH]. Qed.

Lemma append_empty_r (a : string) : (a ++ "")%string = a.
Proof. induction a as [|x a IH]; simpl; [reflexivity|now rewrite IH]. Qed.

Lemma length_append (a b : string) :
  String.length (a ++ b) = String.length a + String.length b.
Proof. induction a as [|x a IH]; simpl; [reflexivity|now rewrite IH]. Qed.

Lemma list_of_append (a b : string) :
  list_ascii_of_string (a ++ b) = list_ascii_of_string a ++ list_ascii_of_string b.
Proof. induction a as [|x a IH]; simpl; [reflexivity|now rewrite IH]. Qed.

Lemma list_of_string_inj (a b : string) :
  list_ascii_of_string a = list_ascii_of_string b -> a = b.
Proof.
  intros H. rewrite <- (string_of_list_ascii_of_string a), H.
  apply string_of_list_ascii_of_string.
Qed.

Lemma append_inv_tail (a b n : string) : (a ++ n = b ++ n)%string -> a = b.
Proof.
  intros H. apply list_of_string_inj.
  apply (f_equal list_ascii_of_string) in H. rewrite !list_of_append in H.
  now apply app_inv_tail in H.
Qed.

Lemma take_drop (i : nat) (s : string) : (take i s ++ drop i s)%string = s.
Proof.
  revert s. induction i as [|i IH]; intros [|c s]; simpl; try reflexivity.
  now rewrite IH.
Qed.

Lemma Split_append (s : string) : (fst (path.Split s) ++ snd (path.Split s))%string = s.
Proof.
  unfold path.Split. destruct (LastIndexByte s slash); [apply take_drop|reflexivity].
Qed.

Lemma prefix_length (a b : string) :
  String.prefix a b = true -> String.length a <= String.length b.
Proof.
  revert b. induction a as [|x a IH]; intros [|y b]; simpl; try lia; try discriminate.
  destruct (ascii_dec x y); [|discriminate]. intros H. apply IH in H. lia.
Qed.

(** A directory whose path is longer than the declared directory of a
    part neither is that directory nor is a prefix of it. *)
Lemma shorter_outside (dir cur : string) :
  String.length dir < String.length cur ->
  String.eqb dir cur = false /\ HasPrefix dir cur = false.
Proof.
  intros L. split.
  - apply String.eqb_neq. intros ->. lia.
  - unfold HasPrefix. destruct (String.prefix cur dir) eqn:P; [|reflexivity].
    apply prefix_length in P. lia.
Qed.

End Strings.

(** ** Paths of well-formed names *)

Section Paths.

Lemma wf_name_inv n :
  wf_name n = true ->
  n <> "" /\ contains slash n = false /\ n <> "." /\ n <> "..".
Proof.
  unfold wf_name. rewrite !andb_true_iff, !negb_true_iff, !String.eqb_neq. tauto.
Qed.

Lemma clean_copy (s tail : string) (out : path.lazybuf) :
  contains slash s = false ->
  path.clean_loop false true (s ++ tail) out 0
  = path.clean_loop false true tail (rev (list_ascii_of_string s) ++ out) 0.
Proof.
  revert out. induction s as [|c s IH]; intros out H; simpl in *; [reflexivity|].
  apply orb_false_iff in H. destruct H as [Hc Hs]. rewrite Hc.
  rewrite (IH _ Hs). now rewrite <- app_assoc.
Qed.

Lemma clean_element (n tail : string) (out : path.lazybuf) :
  wf_name n = true -> path.at_element_end tail ->
  path.clean_loop false false (n ++ tail) out 0
  = path.clean_loop false true tail
      (rev (list_ascii_of_string n) ++ path.separator out ++ out) 0.
Proof.
  intros W T. destruct (wf_name_inv _ W) as (N0 & NS & N1 & N2).
  destruct n as [|c n]; [congruence|]. simpl in NS.
  apply orb_false_iff in NS. destruct NS as [Hc Hn].
  assert (REAL :
    path.clean_loop false true (n ++ tail)
      (c :: (if (false && negb (List.length out =? 1))
                || (negb false && negb (List.length out =? 0))
             then slash :: out else out)) 0
    = path.clean_loop false true tail
        (rev (list_ascii_of_string (String c n)) ++ path.separator out ++ out) 0).
  { rewrite (clean_copy _ _ _ Hn). f_equal. simpl.
    rewrite <- app_assoc. simpl. destruct out; reflexivity. }
  simpl (String c n ++ tail)%string. cbn [path.clean_loop]. rewrite Hc.
  destruct (Ascii.eqb c dot) eqn:D; [|exact REAL].
  apply Ascii.eqb_eq in D. subst c.
  destruct n as [|d n].
  - exfalso. apply N1. reflexivity.
  - simpl in Hn. apply orb_false_iff in Hn. destruct Hn as [Hd Hn].
    simpl ((String d n ++ tail)%string). cbv iota beta. rewrite Hd.
    destruct (Ascii.eqb d dot) eqn:D2; [|exact REAL].
    apply Ascii.eqb_eq in D2. subst d.
    destruct n as [|e n]; [exfalso; apply N2; reflexivity|].
    simpl in Hn. apply orb_false_iff in Hn. destruct Hn as [He Hn].
    simpl ((String e n ++ tail)%string). cbn [andb]. rewrite He. exact REAL.
Qed.

Lemma clean_copy_end (tail : string) (out : path.lazybuf) :
  tail = "" \/ tail = "/" ->
  path.clean_loop false true tail out 0 = out.
Proof. intros [-> | ->]; reflexivity. Qed.

Lemma dir_path_cons (n m : string) (ds : list string) :
  dir_path (n :: m :: ds) = (n ++ String slash (dir_path (m :: ds)))%string.
Proof. reflexivity. Qed.

Lemma clean_dir_path (ds : list string) (tail : string) (out : path.lazybuf) :
  ds <> [] -> forallb wf_name ds = true -> tail = "" \/ tail = "/" ->
  path.clean_loop false false (dir_path ds ++ tail) out 0
  = rev (list_ascii_of_string (dir_path ds)) ++ path.separator out ++ out.
Proof.
  intros N W T. revert out. induction ds as [|n ds IH]; intros out; [congruence|].
  simpl in W. apply andb_true_iff in W. destruct W as [Wn W].
  destruct ds as [|m ds].
  - change (dir_path [n]) with n.
    rewrite clean_element; auto.
    + now rewrite clean_copy_end.
    + destruct T as [-> | ->]; [left; reflexivity | right; now exists ""].
  - rewrite dir_path_cons, append_assoc.
    change (String slash (dir_path (m :: ds)) ++ tail)%string
      with (String slash (dir_path (m :: ds) ++ tail)).
    rewrite clean_element; auto; [|right; eauto].
    cbn [path.clean_loop]. rewrite Ascii.eqb_refl.
    rewrite IH; auto; [|discriminate].
    rewrite list_of_append. simpl list_ascii_of_string. rewrite rev_app_distr. simpl rev.
    destruct (wf_name_inv _ Wn) as (N0 & _).
    destruct n as [|c n]; [congruence|].
    assert (S : path.separator (rev (list_ascii_of_string (String c n)) ++ path.separator out ++ out)
                = [slash]).
    { simpl. destruct (rev (list_ascii_of_string n)); reflexivity. }
    rewrite S. rewrite <- !app_assoc. reflexivity.
Qed.

Lemma dir_path_head (n : string) (ds : list string) :
  exists t, dir_path (n :: ds) = (n ++ t)%string.
Proof.
  destruct ds as [|m ds].
  - exists "". simpl. now rewrite append_empty_r.
  - eexists. apply dir_path_cons.
Qed.

Lemma Clean_dir_path (ds : list string) (tail : string) :
  ds <> [] -> forallb wf_name ds = true -> tail = "" \/ tail = "/" ->
  path.Clean (dir_path ds ++ tail) = dir_path ds.
Proof.
  intros N W T.
  pose proof (clean_dir_path ds tail [] N W T) as C.
  destruct ds as [|n ds]; [congruence|].
  destruct (dir_path_head n ds) as [t E].
  simpl in W. apply andb_true_iff in W. destruct W as [Wn _].
  destruct (wf_name_inv _ Wn) as (N0 & NS & _).
  destruct n as [|c n]; [congruence|].
  simpl in NS. apply orb_false_iff in NS. destruct NS as [Hc _].
  rewrite E in *. simpl ((String c n ++ t) ++ tail)%string in *.
  unfold path.Clean. rewrite Hc. rewrite C. simpl path.separator. rewrite app_nil_r.
  destruct (rev (list_ascii_of_string (String c n ++ t))) eqn:R.
  - apply (f_equal (@List.length _)) in R. rewrite length_rev in R. discriminate.
  - unfold path.buf_string. rewrite <- R.
    now rewrite rev_involutive, string_of_list_ascii_of_string.
Qed.

Lemma dir_path_not_dot (ds : list string) :
  forallb wf_name ds = true -> String.eqb (dir_path ds) "." = false.
Proof.
  intros W. apply String.eqb_neq. destruct ds as [|n ds]; [discriminate|].
  simpl in W. apply andb_true_iff in W. destruct W as [Wn _].
  destruct (wf_name_inv _ Wn) as (N0 & _ & N1 & _).
  destruct ds as [|m ds]; [exact N1|].
  rewrite dir_path_cons. destruct n as [|c [|d n]]; [congruence| |]; discriminate.
Qed.

Lemma normalize_dir_path (ds : list string) :
  forallb wf_name ds = true -> normalize (dir_path ds) = dir_path ds.
Proof.
  intros W. destruct ds as [|n ds]; [reflexivity|].
  assert (C : path.Clean (dir_path (n :: ds)) = dir_path (n :: ds)).
  { rewrite <- (append_empty_r (dir_path (n :: ds))) at 1.
    apply Clean_dir_path; auto. discriminate. }
  unfold normalize. rewrite C. now rewrite dir_path_not_dot.
Qed.

Lemma normalize_dir_prefix (ds : list string) :
  forallb wf_name ds = true -> normalize (dir_prefix ds) = dir_path ds.
Proof.
  intros W. destruct ds as [|n ds]; [reflexivity|].
  unfold normalize, dir_prefix.
  rewrite Clean_dir_path; auto; [|discriminate].
  now rewrite dir_path_not_dot.
Qed.

Lemma dir_path_snoc (ds : list string) (n : string) :
  dir_path (ds ++ [n]) = (dir_prefix ds ++ n)%string.
Proof.
  induction ds as [|m ds IH]; [reflexivity|].
  destruct ds as [|k ds].
  - simpl. now rewrite append_assoc.
  - change ((m :: k :: ds) ++ [n]) with (m :: k :: (ds ++ [n])).
    rewrite dir_path_cons.
    change (k :: ds ++ [n]) with ((k :: ds) ++ [n]). rewrite IH.
    unfold dir_prefix. rewrite dir_path_cons.
    rewrite !append_assoc. reflexivity.
Qed.

Lemma dir_path_empty (ds : list string) :
  forallb wf_name ds = true -> ds <> [] -> String.eqb (dir_path ds) "" = false.
Proof.
  intros W N. apply String.eqb_neq. destruct ds as [|n ds]; [congruence|].
  simpl in W. apply andb_true_iff in W. destruct W as [Wn _].
  destruct (wf_name_inv _ Wn) as (N0 & _).
  destruct (dir_path_head n ds) as [t ->].
  destruct n; [congruence|discriminate].
Qed.

Lemma entry_path_dir_path (ds : list string) (n : string) :
  forallb wf_name ds = true ->
  entry_path (dir_path ds) n = dir_path (ds ++ [n]).
Proof.
  intros W. rewrite dir_path_snoc. unfold entry_path.
  destruct ds as [|m ds]; [reflexivity|].
  rewrite dir_path_empty; auto; [|discriminate].
  unfold dir_prefix. now rewrite append_assoc.
Qed.

Lemma dir_path_longer (ds : list string) (n : string) :
  n <> "" -> String.length (dir_path ds) < String.length (dir_path (ds ++ [n])).
Proof.
  intros N. rewrite dir_path_snoc, length_append.
  assert (String.length (dir_path ds) <= String.length (dir_prefix ds)).
  { destruct ds; [simpl; lia|]. unfold dir_prefix. rewrite length_append. lia. }
  destruct n; [congruence|]. simpl. lia.
Qed.
End Paths.

(** ** The part classifier *)

Section Classifier.

Variable ParseMediaType : string -> string * option nat.

Local Abbreviation newFileFromPart := (files.newFileFromPart ParseMediaType).

Lemma newFileFromPart_outside parent part reader :
  String.eqb (declared_dir part) (normalize parent) = false ->
  newFileFromPart parent part reader =
  ("", None,
   Some (if HasPrefix (declared_dir part) (normalize parent)
         then ErrPartInChildTree else ErrPartOutsideParent)).
Proof.
  unfold declared_dir, files.newFileFromPart. intros H.
  destruct (path.Split (fileName_of (Some part))) as [dir0 base]. simpl in *.
  rewrite H. simpl.
  destruct (HasPrefix (normalize dir0) (normalize parent)); reflexivity.
Qed.

Lemma newFileFromPart_direct parent part reader :
  String.eqb (declared_dir part) (normalize parent) = true ->
  ~ scope_error (snd (newFileFromPart parent part reader)).
Proof.
  unfold declared_dir, files.newFileFromPart, scope_error. intros H.
  destruct (path.Split (fileName_of (Some part))) as [dir0 base]. simpl in *.
  rewrite H. simpl.
  destruct (String.eqb _ applicationSymlink).
  - unfold ReadAll. destruct (ReadErr part); simpl; intros [E|E]; discriminate.
  - destruct (_ || _); simpl; [intros [E|E]; discriminate|].
    destruct (ParseMediaType _) as [mt [code|]]; simpl; [intros [E|E]; discriminate|].
    destruct (negb (isDirectory mt)); simpl; intros [E|E]; discriminate.
Qed.

(** C2. The classifier compares the normalized declared directory of the
    part with the normalized current path: the part is a direct child
    (neither scope signal) exactly when they are equal, the in-child-tree
    signal is returned exactly when they differ and the current path is a
    raw string prefix of the declared directory, the outside-parent signal
    exactly in the remaining case, and no name or node comes with either
    signal.  The prefix test ignores path segments: under the current
    directory "ab" a part "abc/file" is in-child-tree. *)
Theorem newFileFromPart_scope (parent : string) (part : Part) (reader : option PartReader) :
  let dir := declared_dir part in
  let cur := normalize parent in
  let e := snd (newFileFromPart parent part reader) in
  normalize "" = "" /\ normalize "." = "" /\
  (dir = cur <-> ~ scope_error e) /\
  (e = Some ErrPartInChildTree <-> dir <> cur /\ HasPrefix dir cur = true) /\
  (e = Some ErrPartOutsideParent <-> dir <> cur /\ HasPrefix dir cur = false) /\
  (scope_error e -> newFileFromPart parent part reader = ("", None, e)) /\
  (forall h b re,
      newFileFromPart "ab"
        {| FileName := "abc/file"; Header_Get := h; Body := b; ReadErr := re |} reader
      = ("", None, Some ErrPartInChildTree)).
Proof.
  intros dir cur e. subst dir cur e.
  split; [reflexivity|]. split; [reflexivity|].
  assert (X : forall h b re,
      newFileFromPart "ab"
        {| FileName := "abc/file"; Header_Get := h; Body := b; ReadErr := re |} reader
      = ("", None, Some ErrPartInChildTree)) by reflexivity.
  destruct (String.eqb (declared_dir part) (normalize parent)) eqn:E.
  - pose proof (newFileFromPart_direct parent part reader E) as D.
    apply String.eqb_eq in E. unfold scope_error in *.
    intuition congruence.
  - pose proof (newFileFromPart_outside parent part reader E) as O.
    apply String.eqb_neq in E. rewrite O. simpl. unfold scope_error.
    destruct (HasPrefix (declared_dir part) (normalize parent));
      intuition congruence.
Qed.

Lemma newFileFromPart_child parent part reader :
  declared_dir part = normalize parent ->
  newFileFromPart parent part reader =
  let base := base_name part in
  let contentType := Header_Get part contentTypeHeader in
  let file := (base, Some (ReaderFile part (Header_Get part "abspath")), None) in
  if String.eqb contentType applicationSymlink then
    match ReadAll part with
    | inr err => ("", None, Some err)
    | inl out => (base, Some (Symlink out), None)
    end
  else if String.eqb contentType "" || String.eqb contentType applicationFile then file
  else
    match ParseMediaType contentType with
    | (_, Some code) => ("", None, Some (LibError code))
    | (mediatype, None) =>
        if negb (isDirectory mediatype) then file
        else (base,
              Some (Dir {| Part_ := Some part; Reader := reader; Mediatype := mediatype |}),
              None)
    end.
Proof.
  unfold declared_dir, base_name, files.newFileFromPart. intros H.
  destruct (path.Split (fileName_of (Some part))) as [dir0 base]. simpl in *.
  rewrite H, String.eqb_refl. reflexivity.
Qed.

(** C6. A direct child whose Content-Type is application/symlink has its
    body read to the end at once: the result is a Symlink node whose target
    is the body, byte for byte, or the error of the read.  A direct child
    whose Content-Type is empty or application/octet-stream is a File node
    that holds the part itself, body unread, with the abspath header, and
    no error. *)
Theorem newFileFromPart_leaf (parent : string) (part : Part) (reader : option PartReader) :
  declared_dir part = normalize parent ->
  let contentType := Header_Get part contentTypeHeader in
  (contentType = applicationSymlink ->
   match ReadErr part with
   | None =>
       newFileFromPart parent part reader
       = (base_name part, Some (Symlink (Body part)), None)
   | Some code =>
       newFileFromPart parent part reader = ("", None, Some (LibError code))
   end) /\
  (contentType = "" \/ contentType = applicationFile ->
   newFileFromPart parent part reader
   = (base_name part, Some (ReaderFile part (Header_Get part "abspath")), None)) /\
  newFileFromPart "" (mkPart "link" applicationSymlink "../target") reader
  = ("link", Some (Symlink "../target"), None).
Proof.
  intros H ct. subst ct. rewrite (newFileFromPart_child _ _ _ H). cbv zeta.
  split; [|split].
  - intros ->. simpl. unfold ReadAll. destruct (ReadErr part); reflexivity.
  - intros [-> | ->]; reflexivity.
  - reflexivity.
Qed.

(** C7. A direct child with any other Content-Type has it parsed as a
    media type: a parse failure is returned as the error; a parsed type
    that is multipart/form-data or application/x-directory gives a
    Directory node made of this part and the reader handed in; any other
    parsed type gives the File node of the octet-stream case. *)
Theorem newFileFromPart_mediatype (parent : string) (part : Part)
        (reader : option PartReader) :
  declared_dir part = normalize parent ->
  let contentType := Header_Get part contentTypeHeader in
  contentType <> "" ->
  contentType <> applicationFile ->
  contentType <> applicationSymlink ->
  match ParseMediaType contentType with
  | (_, Some code) =>
      newFileFromPart parent part reader = ("", None, Some (LibError code))
  | (mediatype, None) =>
      (mediatype = multipartFormdataType \/ mediatype = applicationDirectory ->
       newFileFromPart parent part reader
       = (base_name part,
          Some (Dir {| Part_ := Some part; Reader := reader; Mediatype := mediatype |}),
          None)) /\
      (mediatype <> multipartFormdataType -> mediatype <> applicationDirectory ->
       newFileFromPart parent part reader
       = (base_name part, Some (ReaderFile part (Header_Get part "abspath")), None))
  end.
Proof.
  intros H ct N1 N2 N3. subst ct. rewrite (newFileFromPart_child _ _ _ H). cbv zeta.
  apply String.eqb_neq in N1, N2, N3. rewrite N1, N2, N3. simpl.
  destruct (ParseMediaType _) as [mt [code|]]; [reflexivity|].
  unfold isDirectory. split.
  - intros [-> | ->]; reflexivity.
  - intros M1 M2. apply String.eqb_neq in M1, M2. rewrite M1, M2. reflexivity.
Qed.

End Classifier.

(** ** The lookahead buffer *)

Lemma put_empty (p : Part) (st : Store) :
  next (peek st) = None ->
  put p st = (None, {| source := source st;
                       peek := {| r := r (peek st); next := Some p |} |}).
Proof. unfold put. intros ->. reflexivity. Qed.

Lemma put_occupied (p q : Part) (st : Store) :
  next (peek st) = Some q -> put p st = (Some protocol_violation, st).
Proof. unfold put. intros ->. reflexivity. Qed.

Lemma peekReader_NextPart_pending (p : Part) (st : Store) :
  next (peek st) = Some p ->
  peekReader_NextPart st
  = (inl p, {| source := source st; peek := {| r := r (peek st); next := None |} |}).
Proof. unfold peekReader_NextPart. intros ->. reflexivity. Qed.

(** After [NextPart] has handed out a part the slot is empty. *)
Lemma peekReader_NextPart_part (st st1 : Store) (p : Part) :
  peekReader_NextPart st = (inl p, st1) -> next (peek st1) = None.
Proof.
  unfold peekReader_NextPart.
  destruct (next (peek st)) eqn:N.
  - intros H. inversion H. reflexivity.
  - destruct (r (peek st)); [|discriminate].
    destruct (Source_NextPart (source st)) as [[q|e] src].
    + intros H. inversion H. subst. exact N.
    + destruct e; discriminate.
Qed.

Lemma peekReader_NextPart_EOF (st st1 : Store) :
  peekReader_NextPart st = (inr io_EOF, st1) ->
  r (peek st1) = None /\ next (peek st1) = None.
Proof.
  unfold peekReader_NextPart.
  destruct (next (peek st)) eqn:N; [discriminate|].
  destruct (r (peek st)) eqn:R.
  - destruct (Source_NextPart (source st)) as [[q|e] src]; [discriminate|].
    destruct e; intros H; inversion H; subst; simpl; auto.
  - intros H. inversion H. subst. auto.
Qed.

Lemma peekReader_NextPart_drained (st : Store) :
  r (peek st) = None -> next (peek st) = None ->
  peekReader_NextPart st = (inr io_EOF, st).
Proof. unfold peekReader_NextPart. intros -> ->. reflexivity. Qed.

Lemma run_op_drained (o : buffer_op) (st : Store) :
  r (peek st) = None ->
  r (peek (run_op o st)) = None /\ source (run_op o st) = source st.
Proof.
  intros R. destruct o as [p|]; simpl.
  - unfold put. destruct (next (peek st)); simpl; auto.
  - unfold peekReader_NextPart. rewrite R.
    destruct (next (peek st)); simpl; auto.
Qed.

Lemma run_ops_drained (os : list buffer_op) (st : Store) :
  r (peek st) = None ->
  r (peek (run_ops os st)) = None /\ source (run_ops os st) = source st.
Proof.
  revert st. induction os as [|o os IH]; intros st R; simpl; [auto|].
  destruct (run_op_drained o st R) as [R1 S1].
  destruct (IH _ R1) as [R2 S2]. split; congruence.
Qed.

Lemma stream_pull (st : Store) (p : Part) (rest : list (Part + error)) :
  stream st = inl p :: rest ->
  exists st1, peekReader_NextPart st = (inl p, st1)
              /\ stream st1 = rest /\ next (peek st1) = None.
Proof.
  unfold stream, peekReader_NextPart.
  destruct (next (peek st)) as [q|] eqn:N; simpl.
  - intros H. inversion H. subst. eexists. split; [reflexivity|]. simpl. auto.
  - destruct (r (peek st)) eqn:R; [|discriminate].
    unfold Source_NextPart. intros ->. eexists. split; [reflexivity|].
    unfold stream. simpl. rewrite N, R. auto.
Qed.

Lemma stream_end (st : Store) :
  stream st = [] ->
  exists st1, peekReader_NextPart st = (inr io_EOF, st1) /\ stream st1 = [].
Proof.
  unfold stream, peekReader_NextPart.
  destruct (next (peek st)) as [q|] eqn:N; simpl; [discriminate|].
  destruct (r (peek st)) eqn:R.
  - unfold Source_NextPart. intros ->. eexists. split; [reflexivity|].
    reflexivity.
  - intros _. exists st. split; [reflexivity|]. unfold stream. now rewrite N, R.
Qed.

Lemma stream_put (st : Store) (p : Part) :
  next (peek st) = None ->
  stream {| source := source st; peek := {| r := r (peek st); next := Some p |} |}
  = inl p :: stream st.
Proof. unfold stream. simpl. intros ->. reflexivity. Qed.

(** C8. The buffer has one slot.  While a pushed-back part is pending, a
    further [put] fails with the protocol-violation error and changes
    nothing, so the pending part stays; a [put] into the empty slot succeeds
    and the next [NextPart] returns that very part, without a call to the
    source, and empties the slot.  Two [put]s in a row: the second always
    fails. *)
Theorem put_single_slot (st : Store) (p q : Part) :
  match next (peek st) with
  | Some pending => put q st = (Some protocol_violation, st)
  | None =>
      put q st = (None, {| source := source st;
                           peek := {| r := r (peek st); next := Some q |} |})
      /\ peekReader_NextPart (snd (put q st)) = (inl q, st)
  end
  /\ fst (put q (snd (put p st))) = Some protocol_violation.
Proof.
  split.
  - destruct (next (peek st)) eqn:N.
    + eapply put_occupied; eauto.
    + rewrite (put_empty _ _ N). split; [reflexivity|].
      simpl. unfold peekReader_NextPart. simpl.
      destruct st as [src [rr nn]]. simpl in *. subst. reflexivity.
  - unfold put at 2. destruct (next (peek st)) eqn:N; simpl.
    + rewrite (put_occupied _ _ _ N). reflexivity.
    + unfold put. reflexivity.
Qed.

(** C9. Once [NextPart] of the buffer has returned end-of-input, the
    buffer has dropped its source for good: whatever is done with the
    buffer afterwards, the source is left as it was (not called again), and
    every [NextPart] with nothing pushed back returns end-of-input and
    changes nothing. *)
Theorem peekReader_exhausted (st st1 : Store) (os : list buffer_op) :
  peekReader_NextPart st = (inr io_EOF, st1) ->
  let st2 := run_ops os st1 in
  r (peek st2) = None /\
  source st2 = source st1 /\
  calls (source st2) = calls (source st1) /\
  (next (peek st2) = None -> peekReader_NextPart st2 = (inr io_EOF, st2)).
Proof.
  intros H st2. subst st2.
  destruct (peekReader_NextPart_EOF _ _ H) as [R _].
  destruct (run_ops_drained os st1 R) as [R2 S2].
  repeat split; auto.
  - now rewrite S2.
  - intros N. now apply peekReader_NextPart_drained.
Qed.

(** ** The iterator *)

Section Iterator.

Variable ParseMediaType : string -> string * option nat.

Local Abbreviation newFileFromPart := (files.newFileFromPart ParseMediaType).
Local Abbreviation Next_loop := (files.Next_loop ParseMediaType).
Local Abbreviation Next_fuel := (files.Next_fuel ParseMediaType).
Local Abbreviation Next := (files.Next ParseMediaType).

Lemma NextPart_part_pending reader st st1 p :
  NextPart reader st = (inl p, st1) -> pending reader st1 < pending reader st.
Proof.
  destruct reader; simpl; unfold peekReader_NextPart, Source_NextPart.
  - destruct (script (source st)) as [|x rest]; intros H; inversion H; subst; simpl. lia.
  - destruct (next (peek st)) eqn:N.
    + intros H. inversion H. subst. simpl. lia.
    + destruct (r (peek st)) eqn:R; [|discriminate].
      destruct (script (source st)) as [|x rest]; [discriminate|].
      destruct x as [q|e]; [|destruct e; discriminate].
      intros H. inversion H. subst. simpl. rewrite N, R. simpl. lia.
Qed.

Lemma pending_rounds reader st : pending reader st < rounds st.
Proof.
  unfold rounds. destruct reader; simpl; [lia|].
  destruct (next (peek st)), (r (peek st)); simpl; lia.
Qed.

Lemma Next_loop_enough n reader it st :
  pending reader st < n -> exists x, Next_loop n reader it st = Some x.
Proof.
  revert st. induction n as [|n IH]; intros st H; [lia|]. simpl.
  destruct (NextPart reader st) as [[part|e] st1] eqn:E.
  - apply NextPart_part_pending in E.
    destruct (newFileFromPart _ part _) as [[name cf] e].
    destruct e as [[]|]; eauto. apply IH. lia.
  - destruct (error_eqb e io_EOF); eauto.
Qed.

Lemma Next_loop_mono n m reader it st x :
  Next_loop n reader it st = Some x -> n <= m -> Next_loop m reader it st = Some x.
Proof.
  revert m st. induction n as [|n IH]; intros m st H L; [discriminate|].
  destruct m as [|m]; [lia|]. simpl in *.
  destruct (NextPart reader st) as [[part|e] st1]; [|exact H].
  destruct (newFileFromPart _ part _) as [[name cf] e].
  destruct e as [[]|]; auto. apply IH; [exact H|lia].
Qed.

Lemma Next_loop_stable n m reader it st :
  pending reader st < n -> pending reader st < m ->
  Next_loop n reader it st = Next_loop m reader it st.
Proof.
  intros Hn Hm.
  destruct (Next_loop_enough n reader it st Hn) as [x Hx].
  destruct (Nat.le_ge_cases n m) as [L|L].
  - rewrite (Next_loop_mono _ _ _ _ _ _ Hx L). exact Hx.
  - destruct (Next_loop_enough m reader it st Hm) as [y Hy].
    rewrite (Next_loop_mono _ _ _ _ _ _ Hy L). symmetry. exact Hy.
Qed.

(** [Next] always returns. *)
Lemma Next_total it st : exists res, Next it st = Some res.
Proof.
  unfold files.Next, files.Next_fuel.
  destruct (Reader (f it)) as [reader|]; [|eauto].
  destruct (Next_loop_enough (rounds st) reader it st (pending_rounds _ _)) as [[[ok it1|part] st1] H];
    rewrite H; eauto.
Qed.

Lemma Next_unfold it st reader :
  Reader (f it) = Some reader ->
  Next it st =
  match Next_loop (S (pending reader st)) reader it st with
  | None => None
  | Some (Return ok it1, st1) => Some (ok, it1, st1)
  | Some (Break part, st1) => Some (undo reader part it st1)
  end.
Proof.
  intros R. unfold files.Next, files.Next_fuel. rewrite R.
  rewrite (Next_loop_stable (rounds st) (S (pending reader st))); auto using pending_rounds.
Qed.

(** The source has no part to give: the iterator stops, and keeps the
    error unless it is end-of-input. *)
Lemma Next_source_error it st reader e st1 :
  Reader (f it) = Some reader ->
  NextPart reader st = (inr e, st1) ->
  Next it st = Some (false, if error_eqb e io_EOF then it else set_err it (Some e), st1).
Proof.
  intros R E. rewrite (Next_unfold _ _ _ R). simpl. rewrite E.
  destruct (error_eqb e io_EOF); reflexivity.
Qed.

Lemma Next_discard it st reader part st1 :
  Reader (f it) = Some reader ->
  NextPart reader st = (inl part, st1) ->
  snd (newFileFromPart (fileName (f it)) part (Reader (f it))) = Some ErrPartInChildTree ->
  Next it st = Next it st1.
Proof.
  intros R E C. rewrite !(Next_unfold _ _ _ R).
  pose proof (NextPart_part_pending _ _ _ _ E) as P.
  change (files.Next_loop ParseMediaType (S (pending reader st)) reader it st)
    with (match NextPart reader st with
          | (inr e, st1) =>
              if error_eqb e io_EOF then Some (Return false it, st1)
              else Some (Return false
                           {| f := f it; curFile := curFile it;
                              curName := curName it; err := Some e |}, st1)
          | (inl part, st1) =>
              match newFileFromPart (fileName (f it)) part (Reader (f it)) with
              | (name, cf, e) =>
                  match e with
                  | Some ErrPartOutsideParent => Some (Break part, st1)
                  | Some ErrPartInChildTree => Next_loop (pending reader st) reader it st1
                  | _ =>
                      Some (Return (match e with None => true | Some _ => false end)
                              {| f := f it; curFile := cf; curName := name; err := e |},
                            st1)
                  end
              end
          end).
  rewrite E.
  destruct (newFileFromPart _ part _) as [[name cf] e]. simpl in C. subst e.
  rewrite (Next_loop_stable (pending reader st) (S (pending reader st1))); auto.
Qed.

Lemma Next_stop it st reader part st1 :
  Reader (f it) = Some reader ->
  NextPart reader st = (inl part, st1) ->
  snd (newFileFromPart (fileName (f it)) part (Reader (f it))) = Some ErrPartOutsideParent ->
  Next it st = Some (undo reader part it st1).
Proof.
  intros R E C. rewrite (Next_unfold _ _ _ R). simpl. rewrite E.
  destruct (newFileFromPart _ part _) as [[name cf] e]. simpl in C. subst e.
  reflexivity.
Qed.

Lemma Next_entry it st reader part st1 name cf e :
  Reader (f it) = Some reader ->
  NextPart reader st = (inl part, st1) ->
  newFileFromPart (fileName (f it)) part (Reader (f it)) = (name, cf, e) ->
  ~ scope_error e ->
  Next it st =
  Some (match e with None => true | Some _ => false end,
        {| f := f it; curFile := cf; curName := name; err := e |}, st1).
Proof.
  intros R E C S. rewrite (Next_unfold _ _ _ R). simpl. rewrite E, C.
  unfold scope_error in S.
  destruct e as [[]|]; try reflexivity; exfalso; apply S; auto.
Qed.

Lemma Next_loop_agree n m reader it st x :
  Next_loop n reader it st = Some x -> pending reader st < m ->
  Next_loop m reader it st = Some x.
Proof.
  intros Hx Hm.
  destruct (Next_loop_enough m reader it st Hm) as [y Hy].
  destruct (Nat.le_ge_cases n m) as [L|L].
  - exact (Next_loop_mono _ _ _ _ _ _ Hx L).
  - rewrite (Next_loop_mono _ _ _ _ _ _ Hy L) in Hx. congruence.
Qed.

(** Where the loop is left by [break], the part was handed out by the
    reader in the store the loop ends in and is outside the directory. *)
Lemma Next_loop_break n reader it st part st1 :
  Next_loop n reader it st = Some (Break part, st1) ->
  (exists st0, NextPart reader st0 = (inl part, st1)) /\
  snd (newFileFromPart (fileName (f it)) part (Reader (f it))) = Some ErrPartOutsideParent.
Proof.
  revert st. induction n as [|n IH]; intros st H; [discriminate|]. simpl in H.
  destruct (NextPart reader st) as [[q|e] st2] eqn:E.
  - destruct (newFileFromPart _ q _) as [[name cf] e] eqn:C.
    destruct e as [[]|]; try discriminate.
    + inversion H. subst. rewrite C. eauto.
    + eauto.
  - destruct (error_eqb e io_EOF); discriminate.
Qed.

(** Where the loop returns [true], the entry is what the classifier made
    of a direct child. *)
Lemma Next_loop_true n reader it st it1 st1 :
  Next_loop n reader it st = Some (Return true it1, st1) ->
  exists part,
    newFileFromPart (fileName (f it)) part (Reader (f it))
    = (curName it1, curFile it1, None)
    /\ f it1 = f it /\ err it1 = None.
Proof.
  revert st. induction n as [|n IH]; intros st H; [discriminate|]. simpl in H.
  destruct (NextPart reader st) as [[q|e] st2] eqn:E.
  - destruct (newFileFromPart _ q _) as [[name cf] e] eqn:C.
    destruct e as [[]|]; try discriminate; eauto.
    inversion H. subst. simpl. eauto.
  - destruct (error_eqb e io_EOF); discriminate.
Qed.

Lemma newFileFromPart_Dir parent part reader name d e :
  newFileFromPart parent part reader = (name, Some (Dir d), e) ->
  Reader d = reader /\ Part_ d = Some part.
Proof.
  unfold files.newFileFromPart.
  destruct (path.Split _) as [dir0 base].
  destruct (negb _).
  - destruct (HasPrefix _ _); discriminate.
  - destruct (String.eqb _ applicationSymlink).
    + destruct (ReadAll part); discriminate.
    + destruct (_ || _); [discriminate|].
      destruct (ParseMediaType _) as [mt [code|]]; [discriminate|].
      destruct (negb (isDirectory mt)); [discriminate|].
      intros H. inversion H. subst. auto.
Qed.

Lemma Next_true_Dir it st it1 st1 child :
  Next it st = Some (true, it1, st1) ->
  curFile it1 = Some (Dir child) ->
  Reader child = Reader (f it).
Proof.
  unfold files.Next, files.Next_fuel. intros H C.
  destruct (Reader (f it)) as [reader|] eqn:R; [|discriminate].
  destruct (Next_loop (rounds st) reader it st) as [[[ok it2|part] st2]|] eqn:L;
    try discriminate.
  - inversion H. subst.
    destruct (Next_loop_true _ _ _ _ _ _ L) as (part & N & _).
    rewrite C in N. apply newFileFromPart_Dir in N. rewrite R in N. tauto.
  - unfold undo in H. destruct reader; [|destruct (put part st2)]; discriminate.
Qed.

Lemma reachable_Reader mediatype st0 root st1 d :
  NewFileFromPartReader mediatype st0 = (inl root, st1) ->
  reachable ParseMediaType root d ->
  Reader d = Some PeekReader.
Proof.
  unfold NewFileFromPartReader. intros H Rd.
  destruct (negb (isDirectory mediatype)); [discriminate|].
  inversion H. subst. clear H.
  induction Rd as [|d child it it1 st st2 Rd IH F N C]; [reflexivity|].
  subst d. rewrite (Next_true_Dir _ _ _ _ _ N C). exact IH.
Qed.

(** C4. A part the classifier reports as in-child-tree is dropped: the
    advance that pulled it goes on as the advance started after the pull,
    so it neither yields the part nor stops at it; a whole run of such parts
    at the head of the stream is dropped in this way, and the advance is
    decided by what comes after the run.  With the parts a/x.txt, a/y.txt, b.txt and no
    part for a directory a, the root iterator drops the first two and
    returns b.txt; its next advance reports the end. *)
Theorem Next_discards_child_tree :
  (forall it st reader part st1,
      Reader (f it) = Some reader ->
      NextPart reader st = (inl part, st1) ->
      snd (newFileFromPart (fileName (f it)) part (Reader (f it)))
      = Some ErrPartInChildTree ->
      Next it st = Next it st1 /\ exists res, Next it st1 = Some res) /\
  (forall it st ps rest,
      Reader (f it) = Some PeekReader ->
      stream st = map inl ps ++ rest ->
      Forall (fun part =>
                snd (newFileFromPart (fileName (f it)) part (Reader (f it)))
                = Some ErrPartInChildTree) ps ->
      exists st1, Next it st = Next it st1 /\ stream st1 = rest) /\
  (let x := mkPart "a/x.txt" applicationFile "x" in
   let y := mkPart "a/y.txt" applicationFile "y" in
   let b := mkPart "b.txt" applicationFile "b" in
   let root := {| Part_ := None; Reader := Some PeekReader;
                  Mediatype := multipartFormdataType |} in
   let st0 := {| source := {| script := [inl x; inl y; inl b]; calls := 0 |};
                 peek := {| r := Some tt; next := None |} |} in
   let it1 := {| f := root; curFile := Some (ReaderFile b ""); curName := "b.txt";
                 err := None |} in
   let st1 := {| source := {| script := []; calls := 3 |};
                 peek := {| r := Some tt; next := None |} |} in
   let st2 := {| source := {| script := []; calls := 4 |};
                 peek := {| r := None; next := None |} |} in
   NewFileFromPartReader multipartFormdataType (fresh_store [x; y; b]) = (inl root, st0)
   /\ fileName root = ""
   /\ snd (newFileFromPart "" x (Some PeekReader)) = Some ErrPartInChildTree
   /\ snd (newFileFromPart "" y (Some PeekReader)) = Some ErrPartInChildTree
   /\ Next (Entries root) st0 = Some (true, it1, st1)
   /\ Next it1 st1 = Some (false, it1, st2)).
Proof.
  split; [|split].
  - intros it st reader part st1 R E C. split.
    + eapply Next_discard; eauto.
    + apply Next_total.
  - intros it st ps. revert st.
    induction ps as [|p ps IH]; intros st rest R S A.
    + exists st. auto.
    + inversion A as [|? ? C A']. subst. simpl in S.
      destruct (stream_pull _ _ _ S) as (st1 & P & S1 & _).
      destruct (IH st1 rest R S1 A') as (st2 & E & S2).
      exists st2. split; [|exact S2].
      rewrite <- E. eapply Next_discard; eauto.
  - repeat split; reflexivity.
Qed.

(** C5. A part the classifier reports as outside-parent ends the
    directory: the advance returns false with no entry, and the part goes
    back into the buffer slot, so that the next [NextPart] (the parent's)
    returns it again.  What the iterator records is the result of the
    [put]: nothing when the slot was free, the protocol-violation error
    when the slot was occupied. *)
Theorem Next_outside_parent (it : multipartIterator) (st st1 : Store) (part : Part) :
  Reader (f it) = Some PeekReader ->
  peekReader_NextPart st = (inl part, st1) ->
  snd (newFileFromPart (fileName (f it)) part (Reader (f it))) = Some ErrPartOutsideParent ->
  let st2 := {| source := source st1;
                peek := {| r := r (peek st1); next := Some part |} |} in
  Next it st = Some (false, set_err it None, st2)
  /\ peekReader_NextPart st2 = (inl part, st1)
  /\ Next it st = Some (undo PeekReader part it st1)
  /\ forall st' : Store,
      undo PeekReader part it st' =
      match next (peek st') with
      | Some _ => (false, set_err it (Some protocol_violation), st')
      | None =>
          (false, set_err it None,
           {| source := source st';
              peek := {| r := r (peek st'); next := Some part |} |})
      end.
Proof.
  intros R E C st2.
  pose proof (peekReader_NextPart_part _ _ _ E) as N.
  assert (U : forall st' : Store,
      undo PeekReader part it st' =
      match next (peek st') with
      | Some _ => (false, set_err it (Some protocol_violation), st')
      | None =>
          (false, set_err it None,
           {| source := source st';
              peek := {| r := r (peek st'); next := Some part |} |})
      end).
  { intros st'. unfold undo, put. destruct (next (peek st')); reflexivity. }
  assert (X : Next it st = Some (undo PeekReader part it st1)).
  { eapply Next_stop; eauto. }
  repeat split; auto.
  - rewrite X, U, N. reflexivity.
  - subst st2. unfold peekReader_NextPart. simpl.
    destruct st1 as [src [rr nn]]. simpl in *. subst. reflexivity.
Qed.

(** C10. In the traversal that starts at the directory made by
    [NewFileFromPartReader], every directory reads through the one
    [peekReader], and whenever the loop of [Next] is left with a part that
    is outside the directory, the slot is empty: the [put] succeeds, and
    [Next] returns false with no error and the part back in the slot. *)
Theorem pushback_never_fails (mediatype : string) (st0 st1 : Store)
        (root d : MultipartFile) :
  NewFileFromPartReader mediatype st0 = (inl root, st1) ->
  reachable ParseMediaType root d ->
  Reader d = Some PeekReader /\
  forall it st fuel part st2,
    f it = d ->
    Next_loop fuel PeekReader it st = Some (Break part, st2) ->
    next (peek st2) = None
    /\ put part st2
       = (None, {| source := source st2;
                   peek := {| r := r (peek st2); next := Some part |} |})
    /\ Next it st
       = Some (false, set_err it None,
               {| source := source st2;
                  peek := {| r := r (peek st2); next := Some part |} |}).
Proof.
  intros H Rd.
  pose proof (reachable_Reader _ _ _ _ _ H Rd) as R.
  split; [exact R|].
  intros it st fuel part st2 F L. subst d.
  destruct (Next_loop_break _ _ _ _ _ _ L) as [[st' E] C].
  simpl in E. pose proof (peekReader_NextPart_part _ _ _ E) as N.
  split; [exact N|]. split; [apply put_empty; exact N|].
  rewrite (Next_unfold _ _ _ R).
  rewrite (Next_loop_agree _ (S (pending PeekReader st)) _ _ _ _ L); [|lia].
  unfold undo. rewrite (put_empty _ _ N). reflexivity.
Qed.

(** An advance looks at the directory of the iterator and at the store,
    not at what earlier advances left in the iterator. *)
Lemma Next_loop_same_dir n reader it it' st :
  f it' = f it ->
  match Next_loop n reader it st, Next_loop n reader it' st with
  | None, None => True
  | Some (Return ok i, s), Some (Return ok' i', s') =>
      ok = ok' /\ s = s' /\ f i = f it /\ f i' = f it /\ (ok = true -> i = i')
  | Some (Break p, s), Some (Break p', s') => p = p' /\ s = s'
  | _, _ => False
  end.
Proof.
  intros F. revert st. induction n as [|n IH]; intros st; simpl; [exact I|].
  rewrite F.
  destruct (NextPart reader st) as [[q|e] st2].
  - destruct (newFileFromPart _ q _) as [[name cf] e].
    destruct e as [[]|]; simpl; auto; try (repeat split; auto; discriminate).
    apply IH.
  - destruct (error_eqb e io_EOF); simpl; repeat split; auto; discriminate.
Qed.

Lemma Next_same_dir it it' st :
  f it' = f it ->
  match Next it st, Next it' st with
  | Some (ok, i, s), Some (ok', i', s') =>
      ok = ok' /\ s = s' /\ f i = f it /\ f i' = f it /\ (ok = true -> i = i')
  | _, _ => False
  end.
Proof.
  intros F. unfold files.Next, files.Next_fuel. rewrite F.
  destruct (Reader (f it)) as [reader|] eqn:R.
  - pose proof (Next_loop_same_dir (rounds st) reader it it' st F) as H.
    destruct (Next_loop_enough (rounds st) reader it st (pending_rounds _ _)) as [x Hx].
    rewrite Hx in *.
    destruct (Next_loop (rounds st) reader it' st) as [[[ok' i'|p'] s']|];
      destruct x as [[ok i|p] s]; try contradiction; auto.
    destruct H as [<- <-]. unfold undo.
    destruct reader; [|destruct (put p s)]; simpl; repeat split; auto; discriminate.
  - repeat split; auto; discriminate.
Qed.

Lemma error_eqb_EOF e : error_eqb e io_EOF = true -> e = io_EOF.
Proof. destruct e; simpl; congruence. Qed.

(** Where the loop returns [false] and no error is stored afterwards, the
    reader reported end-of-input and the iterator is as before. *)
Lemma Next_loop_false n reader it st it1 st1 :
  Next_loop n reader it st = Some (Return false it1, st1) ->
  err it1 = None ->
  it1 = it /\ exists st0, NextPart reader st0 = (inr io_EOF, st1).
Proof.
  revert st. induction n as [|n IH]; intros st H E; [discriminate|]. simpl in H.
  destruct (NextPart reader st) as [[q|e] st2] eqn:P.
  - destruct (newFileFromPart _ q _) as [[name cf] e] eqn:C.
    destruct e as [[]|]; try (inversion H; subst; simpl in E; discriminate).
    eauto.
  - destruct (error_eqb e io_EOF) eqn:EE.
    + apply error_eqb_EOF in EE. subst e. inversion H. subst. eauto.
    + inversion H. subst. simpl in E. discriminate.
Qed.

Lemma Next_true_err it st it1 st1 :
  Next it st = Some (true, it1, st1) -> err it1 = None.
Proof.
  unfold files.Next, files.Next_fuel. intros H.
  destruct (Reader (f it)) as [reader|]; [|discriminate].
  destruct (Next_loop (rounds st) reader it st) as [[[ok it2|part] st2]|] eqn:L;
    try discriminate.
  - inversion H. subst.
    destruct (Next_loop_true _ _ _ _ _ _ L) as (part & _ & _ & E). exact E.
  - unfold undo in H. destruct reader; [|destruct (put part st2)]; discriminate.
Qed.

(** C3, as the code has it.  An iterator that reads through the buffer
    and whose advance returned the end-marker with no error stored is
    stable: advanced again at once, it returns the same end-marker and
    leaves the iterator and the shared store as they are.  A stored error is
    not a latch.  For every directory and every store, two iterators of
    that directory get the same answer and the same store from an advance,
    whatever entry or error earlier advances left in them, and when the
    answer is true they end up equal, with no error stored.  So an iterator
    with a stored error resumes wherever a fresh one would yield: the
    advance returns the same entry and clears the error. *)
Theorem Next_exhausted_stable :
  (forall (it it1 : multipartIterator) (st st1 : Store),
      Reader (f it) <> Some RawReader ->
      Next it st = Some (false, it1, st1) ->
      Err it1 = None ->
      Next it1 st1 = Some (false, it1, st1))
  /\ (forall (it it' : multipartIterator) (st : Store),
         f it' = f it ->
         exists ok it1 it1' st1,
           Next it st = Some (ok, it1, st1)
           /\ Next it' st = Some (ok, it1', st1)
           /\ (ok = true -> it1' = it1 /\ Err it1 = None))
  /\ (forall (it it1 : multipartIterator) (st st1 : Store) (e : option error),
         Next it st = Some (true, it1, st1) ->
         Next (set_err it e) st = Some (true, it1, st1) /\ Err it1 = None).
Proof.
  assert (SAME : forall (it it' : multipartIterator) (st : Store),
             f it' = f it ->
             exists ok it1 it1' st1,
               Next it st = Some (ok, it1, st1)
               /\ Next it' st = Some (ok, it1', st1)
               /\ (ok = true -> it1' = it1 /\ Err it1 = None)).
  { intros it it' st F.
    pose proof (Next_same_dir it it' st F) as S.
    destruct (Next it st) as [[[ok i] s]|] eqn:N; [|contradiction].
    destruct (Next it' st) as [[[ok' i'] s']|]; [|contradiction].
    destruct S as (<- & <- & _ & _ & EQ).
    exists ok, i, i', s. split; [reflexivity|]. split; [reflexivity|].
    intros ->. split; [symmetry; now apply EQ|].
    exact (Next_true_err _ _ _ _ N). }
  split; [|split; [exact SAME|]].
  - intros it it1 st st1 R H E. unfold Err in E.
    destruct (Reader (f it)) as [[]|] eqn:RR; [congruence| |].
    + rewrite (Next_unfold _ _ _ RR) in H.
      destruct (Next_loop (S (pending PeekReader st)) PeekReader it st)
        as [[[ok i|part] s]|] eqn:L; try discriminate.
      * inversion H. subst. clear H.
        destruct (Next_loop_false _ _ _ _ _ _ L E) as [-> [st0 P]].
        simpl in P. destruct (peekReader_NextPart_EOF _ _ P) as [R1 N1].
        rewrite (Next_source_error it st1 PeekReader io_EOF st1 RR);
          [reflexivity|].
        simpl. now apply peekReader_NextPart_drained.
      * destruct (Next_loop_break _ _ _ _ _ _ L) as [[st0 P] C].
        simpl in P. pose proof (peekReader_NextPart_part _ _ _ P) as N.
        unfold undo in H. rewrite (put_empty _ _ N) in H. inversion H. subst. clear H.
        rewrite (Next_stop (set_err it None) _ PeekReader part s); auto.
        -- unfold undo. rewrite (put_empty _ _ N). reflexivity.
        -- simpl. unfold peekReader_NextPart. simpl.
           destruct s as [src [rr nn]]. simpl in *. subst. reflexivity.
    + unfold files.Next, files.Next_fuel in H. rewrite RR in H.
      inversion H. subst. unfold files.Next, files.Next_fuel. rewrite RR. reflexivity.
  - intros it it1 st st1 e H.
    destruct (SAME it (set_err it e) st eq_refl) as (ok & i & i' & s & N & N' & EQ).
    rewrite H in N. inversion N. subst.
    destruct (EQ eq_refl) as [-> E]. auto.
Qed.

End Iterator.

(** ** A whole traversal *)

Section Traversal.

Variable ParseMediaType : string -> string * option nat.

Local Abbreviation newFileFromPart := (files.newFileFromPart ParseMediaType).
Local Abbreviation Next := (files.Next ParseMediaType).
Local Abbreviation walk := (files.walk ParseMediaType).
Local Abbreviation part_kind := (files.part_kind ParseMediaType).
Local Abbreviation kind_of := (files.kind_of ParseMediaType).
Local Abbreviation wf_tree := (files.wf_tree ParseMediaType).
Local Abbreviation shape := (files.shape ParseMediaType).

Lemma Next_at_end it st :
  Reader (f it) = Some PeekReader -> stream st = [] ->
  exists st1, Next it st = Some (false, it, st1) /\ stream st1 = [].
Proof.
  intros R S. destruct (stream_end _ S) as (st1 & P & S1).
  exists st1. split; [|exact S1].
  now rewrite (Next_source_error ParseMediaType it st PeekReader io_EOF st1 R P).
Qed.

Lemma Next_at_outside it st q rest :
  Reader (f it) = Some PeekReader -> stream st = inl q :: rest ->
  snd (newFileFromPart (fileName (f it)) q (Reader (f it))) = Some ErrPartOutsideParent ->
  exists st2, Next it st = Some (false, set_err it None, st2)
              /\ stream st2 = inl q :: rest.
Proof.
  intros R S C. destruct (stream_pull _ _ _ S) as (st1 & P & S1 & N).
  rewrite (Next_stop ParseMediaType it st PeekReader q st1 R P C).
  unfold undo. rewrite (put_empty _ _ N).
  eexists. split; [reflexivity|]. rewrite stream_put; congruence.
Qed.

Lemma Next_at_child it st p rest name cf :
  Reader (f it) = Some PeekReader -> stream st = inl p :: rest ->
  newFileFromPart (fileName (f it)) p (Reader (f it)) = (name, cf, None) ->
  exists st1,
    Next it st
    = Some (true, {| f := f it; curFile := cf; curName := name; err := None |}, st1)
    /\ stream st1 = rest.
Proof.
  intros R S C. destruct (stream_pull _ _ _ S) as (st1 & P & S1 & N).
  exists st1. split; [|exact S1].
  apply (Next_entry ParseMediaType it st PeekReader p st1 name cf None R P C).
  unfold scope_error. intros [H|H]; discriminate.
Qed.

Lemma wf_tree_inv ds p cs :
  wf_tree ds (Entry p cs) = true ->
  wf_name (base_name p) = true
  /\ fileName_of (Some p) = dir_path (ds ++ [base_name p])
  /\ exists k, part_kind p = Some k
       /\ match k with
          | KDirectory => forallb (wf_tree (ds ++ [base_name p])) cs = true
          | _ => cs = []
          end.
Proof.
  simpl. rewrite !andb_true_iff, String.eqb_eq. intros [[W F] K].
  split; [exact W|]. split; [exact F|].
  destruct (part_kind p) as [k|]; [|discriminate].
  exists k. split; [reflexivity|].
  destruct k; auto; destruct cs; auto; discriminate.
Qed.

Lemma wf_declared_dir ds p :
  forallb wf_name ds = true ->
  fileName_of (Some p) = dir_path (ds ++ [base_name p]) ->
  declared_dir p = dir_path ds.
Proof.
  intros W F. unfold declared_dir.
  assert (E : fst (path.Split (fileName_of (Some p))) = dir_prefix ds).
  { apply (append_inv_tail _ _ (base_name p)).
    unfold base_name at 1. rewrite Split_append, F. apply dir_path_snoc. }
  rewrite E. now apply normalize_dir_prefix.
Qed.

(** What the classifier makes of a direct child that announces a kind. *)
Lemma newFileFromPart_kind parent p reader k :
  declared_dir p = normalize parent ->
  part_kind p = Some k ->
  exists node,
    newFileFromPart parent p reader = (base_name p, Some node, None)
    /\ node_kind node = k
    /\ (k = KDirectory ->
        exists mt, node = Dir {| Part_ := Some p; Reader := reader; Mediatype := mt |}).
Proof.
  intros D K. rewrite (newFileFromPart_child _ _ _ _ D). cbv zeta.
  unfold files.part_kind in K.
  destruct (String.eqb _ applicationSymlink).
  - unfold ReadAll. destruct (ReadErr p); [discriminate|]. inversion K.
    eexists. split; [reflexivity|]. split; [reflexivity|]. discriminate.
  - destruct (_ || _).
    + inversion K. eexists. split; [reflexivity|]. split; [reflexivity|]. discriminate.
    + destruct (ParseMediaType _) as [mt [code|]]; [discriminate|].
      inversion K. destruct (isDirectory mt); simpl.
      * eexists. split; [reflexivity|]. split; [reflexivity|]. eauto.
      * eexists. split; [reflexivity|]. split; [reflexivity|]. discriminate.
Qed.

Lemma stops_inner ds n ts R :
  forallb wf_name ds = true -> n <> "" ->
  forallb (wf_tree ds) ts = true ->
  stops (dir_path ds) R ->
  stops (dir_path (ds ++ [n])) (flat_map parts_of ts ++ R).
Proof.
  intros W N T S. pose proof (dir_path_longer ds n N) as L.
  destruct ts as [|[p cs] ts]; simpl.
  - destruct R; simpl in *; [exact I|lia].
  - simpl in T. apply andb_true_iff in T. destruct T as [T _].
    change (wf_tree ds (Entry p cs) = true) in T.
    destruct (wf_tree_inv _ _ _ T) as (_ & F & _).
    now rewrite (wf_declared_dir _ _ W F).
Qed.

Lemma walk_unfold fuel it st :
  walk (S fuel) it st =
  match Next it st with
  | None => None
  | Some (false, it1, st1) => Some ([], Err it1, st1)
  | Some (true, it1, st1) =>
      let p := entry_path (fileName (f it1)) (curName it1) in
      match curFile it1 with
      | None => None
      | Some (Dir d) =>
          match walk fuel (Entries d) st1 with
          | None => None
          | Some (ys, Some e, st2) => Some ([Yield p KDirectory ys], Some e, st2)
          | Some (ys, None, st2) =>
              match walk fuel it1 st2 with
              | None => None
              | Some (rest, e, st3) => Some (Yield p KDirectory ys :: rest, e, st3)
              end
          end
      | Some leaf =>
          match walk fuel it1 st1 with
          | None => None
          | Some (rest, e, st2) => Some (Yield p (node_kind leaf) [] :: rest, e, st2)
          end
      end
  end.
Proof. reflexivity. Qed.

(** Past the last entry of a directory the walk ends, and what follows
    is still to be read. *)
Lemma walk_end ds R it st fuel :
  forallb wf_name ds = true ->
  stops (dir_path ds) R ->
  Reader (f it) = Some PeekReader ->
  fileName (f it) = dir_path ds ->
  err it = None ->
  stream st = map inl R ->
  exists st', walk (S fuel) it st = Some ([], None, st') /\ stream st' = map inl R.
Proof.
  intros W S Rd F E St. rewrite walk_unfold.
  destruct R as [|q R]; simpl in St.
  - destruct (Next_at_end it st Rd St) as (st1 & N & S1).
    rewrite N. exists st1. unfold Err. rewrite E. auto.
  - simpl in S.
    assert (C : snd (newFileFromPart (fileName (f it)) q (Reader (f it)))
                = Some ErrPartOutsideParent).
    { rewrite <- (normalize_dir_path ds W), <- F in S.
      destruct (shorter_outside _ _ S) as [NE NP].
      rewrite (newFileFromPart_outside _ _ _ _ NE), NP. reflexivity. }
    destruct (Next_at_outside it st q _ Rd St C) as (st2 & N & S2).
    rewrite N. exists st2. auto.
Qed.

Lemma walk_forest (size : nat) :
  forall ts, List.length (flat_map parts_of ts) <= size ->
  forall ds R it st fuel,
    forallb wf_name ds = true ->
    forallb (wf_tree ds) ts = true ->
    stops (dir_path ds) R ->
    Reader (f it) = Some PeekReader ->
    fileName (f it) = dir_path ds ->
    err it = None ->
    stream st = map inl (flat_map parts_of ts ++ R) ->
    List.length (flat_map parts_of ts) < fuel ->
    exists st',
      walk fuel it st = Some (map shape ts, None, st')
      /\ stream st' = map inl R.
Proof.
  induction size as [|size IH]; intros ts Hs ds R it st fuel W T S Rd F E St Hf;
    (destruct fuel as [|fuel]; [lia|]);
    (destruct ts as [|[p cs] ts]; [now apply (walk_end ds)|]);
    [simpl in Hs; lia|].
  simpl in Hs, Hf, St. rewrite length_app in Hs, Hf.
  simpl in T. apply andb_true_iff in T. destruct T as [Tp Tts].
  change (wf_tree ds (Entry p cs) = true) in Tp.
  destruct (wf_tree_inv _ _ _ Tp) as (Wn & Fp & k & K & Kcs).
  pose proof (wf_declared_dir _ _ W Fp) as D.
  assert (D' : declared_dir p = normalize (fileName (f it))).
  { now rewrite F, normalize_dir_path. }
  destruct (newFileFromPart_kind (fileName (f it)) p (Reader (f it)) k D' K)
    as (node & C & NK & ND).
  destruct (Next_at_child it st p _ _ _ Rd St C) as (st1 & N & S1).
  rewrite walk_unfold, N. cbn [f curFile curName].
  assert (P : entry_path (fileName (f it)) (base_name p) = fileName_of (Some p)).
  { rewrite F, Fp. now apply entry_path_dir_path. }
  rewrite P.
  assert (W' : forallb wf_name (ds ++ [base_name p]) = true).
  { rewrite forallb_app. simpl. now rewrite W, Wn. }
  destruct (wf_name_inv _ Wn) as (N0 & _).
  assert (KO : kind_of p = k) by (unfold files.kind_of; now rewrite K).
  destruct k.
  - (* a file *)
    subst cs. simpl in *.
    destruct (IH ts ltac:(lia) ds R
                {| f := f it; curFile := Some node; curName := base_name p; err := None |}
                st1 fuel W Tts S Rd F eq_refl S1 ltac:(lia)) as (st' & Wk & S').
    destruct node; try discriminate. rewrite Wk. exists st'. rewrite KO. auto.
  - (* a link *)
    subst cs. simpl in *.
    destruct (IH ts ltac:(lia) ds R
                {| f := f it; curFile := Some node; curName := base_name p; err := None |}
                st1 fuel W Tts S Rd F eq_refl S1 ltac:(lia)) as (st' & Wk & S').
    destruct node; try discriminate. rewrite Wk. exists st'. rewrite KO. auto.
  - (* a directory *)
    destruct (ND eq_refl) as [mt ->].
    rewrite <- app_assoc in S1.
    destruct (IH cs ltac:(lia) (ds ++ [base_name p]) (flat_map parts_of ts ++ R)
                (Entries {| Part_ := Some p; Reader := Reader (f it); Mediatype := mt |})
                st1 fuel W' Kcs (stops_inner _ _ _ _ W N0 Tts S) Rd Fp eq_refl S1
                ltac:(lia)) as (st2 & Wc & S2).
    rewrite Wc.
    destruct (IH ts ltac:(lia) ds R
                {| f := f it;
                   curFile := Some (Dir {| Part_ := Some p; Reader := Reader (f it);
                                           Mediatype := mt |});
                   curName := base_name p; err := None |}
                st2 fuel W Tts S Rd F eq_refl S2 ltac:(lia)) as (st3 & Wk & S3).
    rewrite Wk. exists st3. simpl. rewrite KO. auto.
Qed.

Lemma trace_shape (t : tree) :
  trace (shape t) = map (fun p => (fileName_of (Some p), kind_of p)) (parts_of t).
Proof.
  revert t. fix IH 1. intros [p cs]. simpl. f_equal.
  induction cs as [|c cs IHcs]; simpl; [reflexivity|].
  now rewrite map_app, IH, IHcs.
Qed.

Lemma trace_forest (ts : list tree) :
  flat_map trace (map shape ts)
  = map (fun p => (fileName_of (Some p), kind_of p)) (flat_map parts_of ts).
Proof.
  induction ts as [|t ts IH]; simpl; [reflexivity|].
  now rewrite map_app, trace_shape, IH.
Qed.

(** C1. A well-formed part sequence lists a forest of entries in
    pre-order under proper names.  A caller that reads every directory it is
    handed to the end before it advances the parent gets, from the root
    iterator and from every nested one, exactly that forest: the entries in
    the order of their parts, every directory entry with the entries of its
    own iterator, no error, and the source read to its end.  Listed depth
    first, the (path, kind) pairs seen are those of the parts, in order. *)
Theorem walk_well_formed (ts : list tree) (mediatype : string) (st0 st1 : Store)
        (root : MultipartFile) (fuel : nat) :
  wf_forest ParseMediaType ts = true ->
  script (source st0) = map inl (flat_map parts_of ts) ->
  NewFileFromPartReader mediatype st0 = (inl root, st1) ->
  List.length (flat_map parts_of ts) < fuel ->
  exists st2,
    walk fuel (Entries root) st1 = Some (map shape ts, None, st2)
    /\ stream st2 = []
    /\ flat_map trace (map shape ts)
       = map (fun p => (fileName_of (Some p), kind_of p)) (flat_map parts_of ts).
Proof.
  intros W Sc N Hf. unfold NewFileFromPartReader in N.
  destruct (negb (isDirectory mediatype)); [discriminate|].
  inversion N. subst. clear N.
  destruct (walk_forest (List.length (flat_map parts_of ts)) ts (le_n _) [] []
              (Entries {| Part_ := None; Reader := Some PeekReader;
                          Mediatype := mediatype |})
              {| source := source st0; peek := {| r := Some tt; next := None |} |}
              fuel eq_refl W I eq_refl eq_refl eq_refl) as (st2 & Wk & S2); auto.
  - unfold stream. simpl. now rewrite Sc, app_nil_r.
  - exists st2. split; [exact Wk|]. split; [exact S2|]. apply trace_forest.
Qed.

End Traversal.

(** ** Worked examples *)

Import samples.

(** C3, as stated, fails.  A part whose content type does not parse puts
    the root iterator into the error state; the next advance returns the
    following part and clears the error. *)
Lemma terminal_state_not_latched :
  ~ (forall (it it1 it2 : multipartIterator) (st st1 st2 : Store) (ok : bool),
        Next mime.ParseMediaType it st = Some (false, it1, st1) ->
        Next mime.ParseMediaType it1 st1 = Some (ok, it2, st2) ->
        ok = false /\ Err it2 = Err it1).
Proof.
  intros H.
  destruct (H (Entries root)
              {| f := root; curFile := None; curName := ""; err := Some (LibError 2) |}
              {| f := root; curFile := Some (ReaderFile file_b ""); curName := "b.txt";
                 err := None |}
              (opened [bad; file_b])
              {| source := {| script := [inl file_b]; calls := 1 |};
                 peek := {| r := Some tt; next := None |} |}
              {| source := {| script := []; calls := 2 |};
                 peek := {| r := Some tt; next := None |} |}
              true eq_refl eq_refl) as [X _].
  discriminate X.
Qed.

(** The stability of an exhausted iterator is about advancing it again at
    once.  On the ill-formed sequence [a], [b.txt], [a/x.txt] the iterator
    of [a] ends at [b.txt]; once the root has taken [b.txt], a further advance
    of the iterator of [a] returns [a/x.txt]. *)
Example exhausted_iterator_after_parent_advance :
  let after_a := {| source := {| script := [inl file_b; inl file_ax]; calls := 1 |};
                    peek := {| r := Some tt; next := None |} |} in
  let at_b := {| source := {| script := [inl file_ax]; calls := 2 |};
                 peek := {| r := Some tt; next := None |} |} in
  let at_end := {| source := {| script := []; calls := 3 |};
                   peek := {| r := Some tt; next := None |} |} in
  let it_a := set_err (Entries node_a) None in
  Next mime.ParseMediaType (Entries node_a) after_a
  = Some (false, it_a, pushed_back file_b at_b)
  /\ Next mime.ParseMediaType (Entries root) (pushed_back file_b at_b)
     = Some (true,
             {| f := root; curFile := Some (ReaderFile file_b ""); curName := "b.txt";
                err := None |},
             at_b)
  /\ Next mime.ParseMediaType it_a at_b
     = Some (true,
             {| f := node_a; curFile := Some (ReaderFile file_ax ""); curName := "x.txt";
                err := None |},
             at_end).
Proof. repeat split. Qed.

Lemma Next_exhausted_stable_witness :
  let it := Entries node_a in
  let st := opened [file_b] in
  let it1 := set_err it None in
  let st1 := pushed_back file_b {| source := {| script := []; calls := 1 |};
                                   peek := {| r := Some tt; next := None |} |} in
  let errored := set_err (Entries root) (Some (LibError 2)) in
  let at_b := {| source := {| script := [inl file_b]; calls := 1 |};
                 peek := {| r := Some tt; next := None |} |} in
  let it_b := {| f := root; curFile := Some (ReaderFile file_b ""); curName := "b.txt";
                 err := None |} in
  let after_b := {| source := {| script := []; calls := 2 |};
                    peek := {| r := Some tt; next := None |} |} in
  (Reader (f it) <> Some RawReader /\
   Next mime.ParseMediaType it st = Some (false, it1, st1) /\
   Err it1 = None /\
   Next mime.ParseMediaType it1 st1 = Some (false, it1, st1)) /\
  (Next mime.ParseMediaType (Entries root) (opened [bad; file_b])
   = Some (false, errored, at_b) /\
   Next mime.ParseMediaType (Entries root) at_b = Some (true, it_b, after_b) /\
   Next mime.ParseMediaType errored at_b = Some (true, it_b, after_b)).
Proof.
  cbv zeta. split.
  - split; [discriminate|]. split; [reflexivity|]. split; [reflexivity|].
    apply (proj1 (Next_exhausted_stable mime.ParseMediaType)
                 (Entries node_a) _ (opened [file_b]) _);
      [discriminate | reflexivity | reflexivity].
  - split; [reflexivity|]. split; [reflexivity|].
    exact (proj1 (proj2 (proj2 (Next_exhausted_stable mime.ParseMediaType))
                        (Entries root)
                        {| f := root; curFile := Some (ReaderFile file_b "");
                           curName := "b.txt"; err := None |}
                        {| source := {| script := [inl file_b]; calls := 1 |};
                           peek := {| r := Some tt; next := None |} |}
                        {| source := {| script := []; calls := 2 |};
                           peek := {| r := Some tt; next := None |} |}
                        (Some (LibError 2)) eq_refl)).
Defined.

Lemma Next_discards_child_tree_witness :
  let it := Entries root in
  let st := opened [file_ax; file_ay; file_b] in
  let st1 := {| source := {| script := [inl file_ay; inl file_b]; calls := 1 |};
                peek := {| r := Some tt; next := None |} |} in
  Reader (f it) = Some PeekReader /\
  NextPart PeekReader st = (inl file_ax, st1) /\
  snd (newFileFromPart mime.ParseMediaType (fileName (f it)) file_ax (Reader (f it)))
  = Some ErrPartInChildTree /\
  Next mime.ParseMediaType it st = Next mime.ParseMediaType it st1.
Proof.
  cbv zeta.
  split; [reflexivity|]. split; [reflexivity|]. split; [reflexivity|].
  apply (proj1 (Next_discards_child_tree mime.ParseMediaType)
               (Entries root) (opened [file_ax; file_ay; file_b]) PeekReader file_ax);
    reflexivity.
Defined.

Lemma Next_outside_parent_witness :
  let it := Entries node_a in
  let st := opened [file_b] in
  let st1 := {| source := {| script := []; calls := 1 |};
                peek := {| r := Some tt; next := None |} |} in
  Reader (f it) = Some PeekReader /\
  peekReader_NextPart st = (inl file_b, st1) /\
  snd (newFileFromPart mime.ParseMediaType (fileName (f it)) file_b (Reader (f it)))
  = Some ErrPartOutsideParent /\
  Next mime.ParseMediaType it st = Some (false, set_err it None, pushed_back file_b st1) /\
  peekReader_NextPart (pushed_back file_b st1) = (inl file_b, st1).
Proof.
  cbv zeta.
  split; [reflexivity|]. split; [reflexivity|]. split; [reflexivity|].
  destruct (Next_outside_parent mime.ParseMediaType (Entries node_a) (opened [file_b])
              {| source := {| script := []; calls := 1 |};
                 peek := {| r := Some tt; next := None |} |}
              file_b eq_refl eq_refl eq_refl) as (A & B & _).
  split; [exact A | exact B].
Defined.

Lemma pushback_never_fails_witness :
  NewFileFromPartReader multipartFormdataType (fresh_store [dir_a; file_b])
  = (inl root, opened [dir_a; file_b]) /\
  reachable mime.ParseMediaType root node_a /\
  Reader node_a = Some PeekReader.
Proof.
  assert (R : reachable mime.ParseMediaType root node_a).
  { apply (reach_entry mime.ParseMediaType root root node_a (Entries root)
             {| f := root; curFile := Some (Dir node_a); curName := "a"; err := None |}
             (opened [dir_a; file_b])
             {| source := {| script := [inl file_b]; calls := 1 |};
                peek := {| r := Some tt; next := None |} |});
      [apply reach_root | reflexivity | reflexivity | reflexivity]. }
  split; [reflexivity|]. split; [exact R|].
  exact (proj1 (pushback_never_fails mime.ParseMediaType multipartFormdataType
                  (fresh_store [dir_a; file_b]) (opened [dir_a; file_b]) root node_a
                  eq_refl R)).
Defined.

Lemma newFileFromPart_leaf_witness :
  declared_dir link = normalize "" /\
  Header_Get link contentTypeHeader = applicationSymlink /\
  newFileFromPart mime.ParseMediaType "" link None
  = ("link", Some (Symlink "../target"), None).
Proof.
  split; [reflexivity|]. split; [reflexivity|].
  exact (proj1 (newFileFromPart_leaf mime.ParseMediaType "" link None eq_refl) eq_refl).
Defined.

Lemma newFileFromPart_mediatype_witness :
  declared_dir dir_a = normalize "" /\
  newFileFromPart mime.ParseMediaType "" dir_a (Some PeekReader)
  = ("a", Some (Dir node_a), None).
Proof.
  split; [reflexivity|].
  refine (proj1 (newFileFromPart_mediatype mime.ParseMediaType "" dir_a (Some PeekReader)
                   eq_refl _ _ _) _);
    [discriminate | discriminate | discriminate | left; reflexivity].
Defined.

Lemma peekReader_exhausted_witness :
  let st := opened [] in
  let st1 := {| source := {| script := []; calls := 1 |};
                peek := {| r := None; next := None |} |} in
  peekReader_NextPart st = (inr io_EOF, st1) /\
  calls (source (run_ops [op_NextPart; op_put file_b; op_NextPart; op_NextPart] st1)) = 1.
Proof.
  cbv zeta. split; [reflexivity|].
  exact (proj1 (proj2 (proj2
           (peekReader_exhausted (opened []) _
              [op_NextPart; op_put file_b; op_NextPart; op_NextPart] eq_refl)))).
Defined.

Lemma walk_well_formed_witness :
  wf_forest mime.ParseMediaType forest = true /\
  script (source (fresh_store (flat_map parts_of forest)))
  = map inl (flat_map parts_of forest) /\
  NewFileFromPartReader multipartFormdataType (fresh_store (flat_map parts_of forest))
  = (inl root, opened (flat_map parts_of forest)) /\
  exists st2,
    walk mime.ParseMediaType 7 (Entries root) (opened (flat_map parts_of forest))
    = Some ([Yield "a" KDirectory [Yield "a/x.txt" KFile []; Yield "a/y.txt" KFile []];
             Yield "link" KSymlink []; Yield "index.html" KFile [];
             Yield "b.txt" KFile []],
            None, st2)
    /\ stream st2 = [].
Proof.
  split; [reflexivity|]. split; [reflexivity|]. split; [reflexivity|].
  destruct (walk_well_formed mime.ParseMediaType forest multipartFormdataType
              (fresh_store (flat_map parts_of forest))
              (opened (flat_map parts_of forest)) root 7
              eq_refl eq_refl eq_refl) as (st2 & W & S & _).
  - simpl. lia.
  - exists st2. split; [exact W | exact S].
Defined.

Import iterator.

(** * Further properties of the code *)

(** ** Construction of the root and file names *)

(** X1. [NewFileFromPartReader] succeeds exactly for the media types
    multipart/form-data and application/x-directory, compared as they are.
    On success the root has no part, so its path is empty, and reads through
    a buffer with an empty slot that will hand out what the source has; on
    failure the error is [ErrNotDirectory] and the store is untouched. *)
Theorem NewFileFromPartReader_accepts (mediatype : string) (st : Store) :
  match NewFileFromPartReader mediatype st with
  | (inl root, st1) =>
      (mediatype = multipartFormdataType \/ mediatype = applicationDirectory)
      /\ root = {| Part_ := None; Reader := Some PeekReader; Mediatype := mediatype |}
      /\ fileName root = ""
      /\ source st1 = source st
      /\ peek st1 = {| r := Some tt; next := None |}
      /\ stream st1 = script (source st)
  | (inr e, st1) =>
      mediatype <> multipartFormdataType /\ mediatype <> applicationDirectory
      /\ e = ErrNotDirectory /\ st1 = st
  end.
Proof.
  unfold NewFileFromPartReader, isDirectory.
  destruct (String.eqb_spec mediatype multipartFormdataType) as [E1|N1]; simpl.
  - repeat split; auto.
  - destruct (String.eqb_spec mediatype applicationDirectory) as [E2|N2]; simpl;
      repeat split; auto.
Qed.

Lemma decode_plain (s : string) :
  contains "%" s = false -> contains "+" s = false ->
  url.well_escaped s = true /\ url.decode s = s.
Proof.
  induction s as [|c s IH]; simpl; [auto|].
  intros H1 H2. apply orb_false_iff in H1, H2.
  destruct H1 as [C1 S1], H2 as [C2 S2]. rewrite C1, C2.
  destruct (IH S1 S2) as [W D]. now rewrite D.
Qed.

(** X2. [fileName] never fails.  A name without percent and plus signs
    is returned as it is; a name whose escapes are malformed is returned as
    it is; a directory without a part has the empty name. *)
Theorem fileName_plain (p : Part) :
  (contains "%" (FileName p) = false -> contains "+" (FileName p) = false ->
   fileName_of (Some p) = FileName p)
  /\ (url.QueryUnescape (FileName p) = None -> fileName_of (Some p) = FileName p)
  /\ (forall reader mediatype,
         fileName {| Part_ := None; Reader := reader; Mediatype := mediatype |} = "").
Proof.
  split; [|split].
  - intros H1 H2. destruct (decode_plain _ H1 H2) as [W D].
    simpl. unfold url.QueryUnescape. now rewrite W, D.
  - simpl. intros ->. reflexivity.
  - reflexivity.
Qed.

(** ** More on the lookahead buffer *)

Lemma peekReader_NextPart_stream (st st1 : Store) (p : Part) :
  peekReader_NextPart st = (inl p, st1) -> stream st = inl p :: stream st1.
Proof.
  unfold peekReader_NextPart, stream.
  destruct (next (peek st)) as [q|] eqn:N.
  - intros H. inversion H. subst. reflexivity.
  - destruct (r (peek st)) eqn:R; [|discriminate].
    unfold Source_NextPart.
    destruct (script (source st)) as [|x rest]; [discriminate|].
    destruct x as [q|e]; [|destruct e; discriminate].
    intros H. inversion H. subst. simpl. now rewrite N, R.
Qed.

(** X14. Putting back the part [NextPart] has just returned always
    succeeds, leaves the source where [NextPart] left it, and restores what
    the buffer will hand out; when the part came from the slot the store is
    exactly as before. *)
Theorem NextPart_put_undo (st st1 : Store) (p : Part) :
  peekReader_NextPart st = (inl p, st1) ->
  fst (put p st1) = None
  /\ stream (snd (put p st1)) = stream st
  /\ source (snd (put p st1)) = source st1
  /\ (next (peek st) <> None -> snd (put p st1) = st).
Proof.
  intros H. pose proof (peekReader_NextPart_part _ _ _ H) as N.
  pose proof (peekReader_NextPart_stream _ _ _ H) as S.
  rewrite (put_empty _ _ N). simpl. repeat split.
  - rewrite stream_put; auto.
  - intros P. unfold peekReader_NextPart in H.
    destruct (next (peek st)) as [q|] eqn:Q; [|congruence].
    inversion H. subst. simpl.
    destruct st as [src [rr nn]]. simpl in *. now subst.
Qed.

(** X15. The buffer hands out parts in order: when a pushed-back part
    and the source together hold the parts [ps] followed by [rest], as many
    calls of [NextPart] as [ps] has parts return [ps], and [rest] is what
    remains. *)
Theorem pulls_in_order (ps : list Part) (rest : list (Part + error)) (st : Store) :
  stream st = map inl ps ++ rest ->
  exists st', pulls (List.length ps) st = (map inl ps, st') /\ stream st' = rest.
Proof.
  revert st. induction ps as [|p ps IH]; intros st S; simpl.
  - eauto.
  - simpl in S. destruct (stream_pull _ _ _ S) as (st1 & P & S1 & _).
    destruct (IH _ S1) as (st' & Q & S'). rewrite P, Q. eauto.
Qed.

(** ** The data type enumeration *)

(** X18. The two maps of the data type enumeration are inverse to each
    other: a number has a name in [UnixfsData_DataType_name] exactly when
    that name has the number in [UnixfsData_DataType_value]. *)
Theorem UnixfsData_DataType_maps_inverse (n : Z) (s : string) :
  pb.name_of n = Some s <-> pb.value_of s = Some n.
Proof.
  unfold pb.name_of, pb.value_of, pb.UnixfsData_DataType_name,
    pb.UnixfsData_DataType_value. cbn [pb.lookup]. split.
  - repeat match goal with
           | |- context [Z.eqb n ?k] =>
               destruct (Z.eqb_spec n k) as [->|?];
               [intros H; inversion H; subst; reflexivity|]
           end.
    discriminate.
  - repeat match goal with
           | |- context [String.eqb s ?k] =>
               destruct (String.eqb_spec s k) as [->|?];
               [intros H; inversion H; subst; reflexivity|]
           end.
    discriminate.
Qed.

(** ** More on the classifier *)

Lemma LastIndexByte_None (s : string) (c : ascii) :
  LastIndexByte s c = None -> contains c s = false.
Proof.
  induction s as [|a s IH]; simpl; [reflexivity|].
  destruct (LastIndexByte s c); [discriminate|].
  destruct (Ascii.eqb a c); [discriminate|]. intros _. now rewrite IH.
Qed.

Lemma LastIndexByte_Some (s : string) (c : ascii) (i : nat) :
  LastIndexByte s c = Some i -> contains c (drop (S i) s) = false.
Proof.
  revert i. induction s as [|a s IH]; intros i; simpl; [discriminate|].
  destruct (LastIndexByte s c) as [j|] eqn:L.
  - intros H. inversion H. subst. now apply IH.
  - destruct (Ascii.eqb a c); [|discriminate].
    intros H. inversion H. subst. simpl. now apply LastIndexByte_None.
Qed.

Lemma Split_base_no_slash (s : string) : contains slash (snd (path.Split s)) = false.
Proof.
  unfold path.Split. destruct (LastIndexByte s slash) as [i|] eqn:L; simpl.
  - now apply LastIndexByte_Some.
  - now apply LastIndexByte_None.
Qed.

Section MoreClassifier.

Variable ParseMediaType : string -> string * option nat.

Local Abbreviation newFileFromPart := (files.newFileFromPart ParseMediaType).

Lemma newFileFromPart_shape parent part reader :
  match newFileFromPart parent part reader with
  | (name, node, None) =>
      name = base_name part /\ node <> None /\ declared_dir part = normalize parent
  | (name, node, Some _) => name = "" /\ node = None
  end.
Proof.
  destruct (String.eqb (declared_dir part) (normalize parent)) eqn:E.
  - apply String.eqb_eq in E.
    rewrite (newFileFromPart_child ParseMediaType _ _ _ E). cbv zeta.
    destruct (String.eqb _ applicationSymlink).
    + destruct (ReadAll part); repeat split; auto; discriminate.
    + destruct (_ || _); [repeat split; auto; discriminate|].
      destruct (ParseMediaType _) as [mt [code|]]; [auto|].
      destruct (negb (isDirectory mt)); repeat split; auto; discriminate.
  - rewrite (newFileFromPart_outside ParseMediaType _ _ _ E). auto.
Qed.

(** X3. What the classifier returns is an entry or an error, never
    both: without error the name is the base name of the unescaped file
    name, has no slash, completes the declared directory to the file name,
    and comes with a node; with an error the name is empty and there is no
    node. *)
Theorem newFileFromPart_name (parent : string) (part : Part) (reader : option PartReader) :
  match newFileFromPart parent part reader with
  | (name, node, None) =>
      name = base_name part
      /\ contains slash name = false
      /\ (fst (path.Split (fileName_of (Some part))) ++ name)%string
         = fileName_of (Some part)
      /\ node <> None
  | (name, node, Some _) => name = "" /\ node = None
  end.
Proof.
  pose proof (newFileFromPart_shape parent part reader) as H.
  destruct (newFileFromPart parent part reader) as [[name node] [e|]]; [exact H|].
  destruct H as (-> & N & _). repeat split; auto.
  - apply Split_base_no_slash.
  - apply Split_append.
Qed.

(** X4. A directory node is only made for a direct child whose parsed
    media type is a directory type: it is bound to the part and to the
    reader handed in, carries the parsed type, and its path is the whole
    unescaped file name of the part. *)
Theorem newFileFromPart_directory (parent name : string) (part : Part)
        (reader : option PartReader) (d : MultipartFile) (e : option error) :
  newFileFromPart parent part reader = (name, Some (Dir d), e) ->
  e = None
  /\ Part_ d = Some part
  /\ Reader d = reader
  /\ isDirectory (Mediatype d) = true
  /\ fst (ParseMediaType (Header_Get part contentTypeHeader)) = Mediatype d
  /\ fileName d = fileName_of (Some part)
  /\ declared_dir part = normalize parent.
Proof.
  intros H.
  destruct (String.eqb (declared_dir part) (normalize parent)) eqn:E.
  - apply String.eqb_eq in E.
    rewrite (newFileFromPart_child ParseMediaType _ _ _ E) in H. cbv zeta in H.
    destruct (String.eqb _ applicationSymlink).
    + destruct (ReadAll part); discriminate.
    + destruct (_ || _); [discriminate|].
      destruct (ParseMediaType _) as [mt [code|]]; [discriminate|].
      destruct (isDirectory mt) eqn:I; simpl in H; [|discriminate].
      inversion H. subst. simpl. auto 10.
  - rewrite (newFileFromPart_outside ParseMediaType _ _ _ E) in H. discriminate.
Qed.

End MoreClassifier.

(** ** More on paths *)

Lemma prefix_empty (s : string) : String.prefix "" s = true.
Proof. destruct s; reflexivity. Qed.

Lemma prefix_append (a b : string) : String.prefix a (a ++ b) = true.
Proof.
  induction a as [|c a IH]; simpl; [apply prefix_empty|].
  destruct (ascii_dec c c); [exact IH|congruence].
Qed.

Lemma dir_path_app (ds ms : list string) :
  ms <> [] -> dir_path (ds ++ ms) = (dir_prefix ds ++ dir_path ms)%string.
Proof.
  intros N. induction ds as [|d ds IH]; [reflexivity|].
  destruct ds as [|k ds].
  - destruct ms as [|m ms]; [congruence|].
    simpl app. rewrite dir_path_cons. simpl. now rewrite append_assoc.
  - change ((d :: k :: ds) ++ ms) with (d :: k :: (ds ++ ms)).
    rewrite dir_path_cons.
    change (k :: ds ++ ms) with ((k :: ds) ++ ms). rewrite IH.
    unfold dir_prefix. rewrite dir_path_cons. rewrite !append_assoc. reflexivity.
Qed.

Lemma dir_path_below_length (ds ms : list string) :
  forallb wf_name ms = true -> ms <> [] ->
  String.length (dir_path ds) < String.length (dir_path (ds ++ ms)).
Proof.
  intros Wm N. rewrite (dir_path_app _ _ N), length_append.
  pose proof (dir_path_empty ms Wm N) as X. apply String.eqb_neq in X.
  assert (String.length (dir_path ds) <= String.length (dir_prefix ds)).
  { destruct ds; [simpl; lia|]. unfold dir_prefix. rewrite length_append. lia. }
  destruct (dir_path ms); [congruence|]. simpl. lia.
Qed.

(** The path of a directory is a proper string prefix of the path of
    everything below it. *)
Lemma dir_path_below (ds ms : list string) :
  forallb wf_name (ds ++ ms) = true -> ms <> [] ->
  String.eqb (dir_path (ds ++ ms)) (dir_path ds) = false
  /\ HasPrefix (dir_path (ds ++ ms)) (dir_path ds) = true.
Proof.
  intros W N. rewrite forallb_app in W. apply andb_true_iff in W. destruct W as [Wd Wm].
  rewrite (dir_path_app _ _ N). split.
  - apply String.eqb_neq. intros E. apply (f_equal String.length) in E.
    rewrite length_append in E.
    pose proof (dir_path_empty ms Wm N) as X. apply String.eqb_neq in X.
    assert (String.length (dir_path ds) <= String.length (dir_prefix ds)).
    { destruct ds; [simpl; lia|]. unfold dir_prefix. rewrite length_append. lia. }
    destruct (dir_path ms); [congruence|]. simpl in E. lia.
  - unfold HasPrefix. destruct ds as [|d ds]; [apply prefix_empty|].
    unfold dir_prefix. rewrite append_assoc. apply prefix_append.
Qed.

Lemma name_split (n n' t t' : string) :
  contains slash n = false -> contains slash n' = false ->
  path.at_element_end t -> path.at_element_end t' ->
  (n ++ t = n' ++ t')%string -> n = n' /\ t = t'.
Proof.
  revert n'. induction n as [|c n IH]; intros [|c' n'] Hn Hn' T T' E; simpl in *.
  - auto.
  - exfalso. apply orb_false_iff in Hn'. destruct Hn' as [Hc _].
    destruct T as [->|[u ->]]; [discriminate|]. inversion E. subst.
    unfold slash in Hc. now rewrite Ascii.eqb_refl in Hc.
  - exfalso. apply orb_false_iff in Hn. destruct Hn as [Hc _].
    destruct T' as [->|[u ->]]; [discriminate|]. inversion E. subst.
    unfold slash in Hc. now rewrite Ascii.eqb_refl in Hc.
  - apply orb_false_iff in Hn, Hn'. destruct Hn as [_ Hn], Hn' as [_ Hn'].
    inversion E. subst. destruct (IH n' Hn Hn' T T' H1) as [-> ->]. auto.
Qed.

(** Proper names joined by slashes can be told apart again. *)
Lemma dir_path_inj (ds ds' : list string) :
  forallb wf_name ds = true -> forallb wf_name ds' = true ->
  dir_path ds = dir_path ds' -> ds = ds'.
Proof.
  revert ds'. induction ds as [|n ds IH]; intros [|n' ds'] W W' E.
  - reflexivity.
  - exfalso. pose proof (dir_path_empty (n' :: ds') W') as X.
    rewrite <- E in X. specialize (X ltac:(discriminate)). discriminate.
  - exfalso. pose proof (dir_path_empty (n :: ds) W) as X.
    rewrite E in X. specialize (X ltac:(discriminate)). discriminate.
  - simpl in W, W'. apply andb_true_iff in W, W'.
    destruct W as [Wn W], W' as [Wn' W'].
    destruct (wf_name_inv _ Wn) as (_ & S1 & _).
    destruct (wf_name_inv _ Wn') as (_ & S2 & _).
    assert (T0 : path.at_element_end "") by now left.
    assert (T1 : forall u, path.at_element_end (String slash u)) by (right; eauto).
    destruct ds as [|m ds]; destruct ds' as [|m' ds'].
    + change (n = n') in E. now subst.
    + exfalso. change (dir_path [n]) with n in E. rewrite dir_path_cons in E.
      rewrite <- (append_empty_r n) in E.
      destruct (name_split _ _ _ _ S1 S2 T0 (T1 _) E) as [_ X]. discriminate.
    + exfalso. change (dir_path [n']) with n' in E. rewrite dir_path_cons in E.
      rewrite <- (append_empty_r n') in E.
      destruct (name_split _ _ _ _ S1 S2 (T1 _) T0 E) as [_ X]. discriminate.
    + rewrite !dir_path_cons in E.
      destruct (name_split _ _ _ _ S1 S2 (T1 _) (T1 _) E) as [-> X].
      inversion X as [Y]. f_equal. now apply IH.
Qed.


(** ** More on the iterator *)

Lemma stream_error (st : Store) (e : error) (rest : list (Part + error)) :
  stream st = inr e :: rest ->
  next (peek st) = None /\ r (peek st) = Some tt /\ script (source st) = inr e :: rest.
Proof.
  unfold stream. destruct (next (peek st)); [discriminate|].
  destruct (r (peek st)) as [[]|]; [|discriminate]. auto.
Qed.

Lemma NextPart_pending_le reader st res st1 :
  NextPart reader st = (res, st1) -> pending reader st1 <= pending reader st.
Proof.
  destruct reader; simpl; unfold peekReader_NextPart, Source_NextPart.
  - destruct (script (source st)) as [|x rest]; intros H; inversion H; subst; simpl; lia.
  - destruct (next (peek st)) eqn:N.
    + intros H. inversion H. subst. simpl. lia.
    + destruct (r (peek st)) eqn:R.
      * destruct (script (source st)) as [|x rest].
        -- intros H. inversion H. subst. simpl. rewrite ?N. lia.
        -- destruct x as [q|e]; [|destruct e]; intros H; inversion H; subst; simpl;
             rewrite ?N, ?R; simpl; lia.
      * intros H. inversion H. subst. rewrite ?N, ?R. simpl. lia.
Qed.

Section MoreIterator.

Variable ParseMediaType : string -> string * option nat.

Local Abbreviation newFileFromPart := (files.newFileFromPart ParseMediaType).
Local Abbreviation Next_loop := (files.Next_loop ParseMediaType).
Local Abbreviation Next := (files.Next ParseMediaType).
Local Abbreviation walk := (files.walk ParseMediaType).
Local Abbreviation list_entries := (iterator.list_entries ParseMediaType).
Local Abbreviation skip_child_tree := (iterator.skip_child_tree ParseMediaType).

(** The ways [Next] returns. *)
Lemma Next_cases it st ok it1 st1 :
  Next it st = Some (ok, it1, st1) ->
  (ok = true /\ f it1 = f it /\ err it1 = None
   /\ exists part, newFileFromPart (fileName (f it)) part (Reader (f it))
                   = (curName it1, curFile it1, None))
  \/ (ok = false /\ curName it1 = curName it /\ curFile it1 = curFile it
      /\ f it1 = f it)
  \/ (ok = false /\ curName it1 = "" /\ curFile it1 = None /\ f it1 = f it
      /\ exists e, err it1 = Some e).
Proof.
  unfold files.Next, files.Next_fuel.
  destruct (Reader (f it)) as [reader|] eqn:R.
  - generalize (rounds st) as n. intros n. revert st.
    induction n as [|n IH]; intros st; [discriminate|]. simpl.
    destruct (NextPart reader st) as [[part|e] st2].
    + pose proof (newFileFromPart_shape ParseMediaType (fileName (f it)) part (Reader (f it))) as Sh.
      rewrite R in *.
      destruct (files.newFileFromPart ParseMediaType (fileName (f it)) part (Some reader))
        as [[name cf] e] eqn:C.
      destruct e as [e|].
      * destruct Sh as [-> ->].
        destruct e; try solve [intros H; inversion H; subst; simpl; right; right; eauto 10].
        -- unfold undo. destruct reader; [|destruct (put part st2)];
             intros H; inversion H; subst; simpl; right; left; auto.
        -- apply IH.
      * intros H. inversion H. subst. simpl. left. eauto 10.
    + destruct (error_eqb e io_EOF); intros H; inversion H; subst; simpl;
        right; left; auto.
  - intros H. inversion H. subst. right. left. auto.
Qed.

(** X6. After an advance that returned true the iterator still belongs
    to the same directory, [Err] is nil, [Node] is not nil and [Name] has no
    slash. *)
Theorem Next_true_contract (it it1 : multipartIterator) (st st1 : Store) :
  Next it st = Some (true, it1, st1) ->
  f it1 = f it
  /\ Err it1 = None
  /\ (exists node, Node_ it1 = Some node)
  /\ contains slash (Name it1) = false.
Proof.
  intros H. destruct (Next_cases _ _ _ _ _ H) as [(_ & F & E & part & C)|[X|X]];
    [|destruct X; discriminate|destruct X; discriminate].
  pose proof (newFileFromPart_shape ParseMediaType (fileName (f it)) part (Reader (f it))) as Sh.
  rewrite C in Sh. destruct Sh as (Nm & Nd & _).
  unfold Err, Node_, Name. repeat split; auto.
  - destruct (curFile it1); [eauto|congruence].
  - rewrite Nm. apply Split_base_no_slash.
Qed.

(** X7. After an advance that returned false the iterator still belongs
    to the same directory, and [Name] and [Node] either still give the
    entry of before (end of input, a part outside the directory, an error of
    the source) or are reset to the empty name and nil, with the error of
    the classifier stored. *)
Theorem Next_false_entry (it it1 : multipartIterator) (st st1 : Store) :
  Next it st = Some (false, it1, st1) ->
  f it1 = f it
  /\ ((Name it1 = Name it /\ Node_ it1 = Node_ it)
      \/ (Name it1 = "" /\ Node_ it1 = None /\ Err it1 <> None)).
Proof.
  intros H. unfold Name, Node_, Err.
  destruct (Next_cases _ _ _ _ _ H) as [X|[(_ & A & B & F)|(_ & A & B & F & e & E)]].
  - destruct X; discriminate.
  - auto.
  - split; [exact F|]. right. rewrite E. repeat split; auto. discriminate.
Qed.

Lemma Next_loop_pending n reader it st x st1 :
  Next_loop n reader it st = Some (x, st1) ->
  pending reader st1 <= pending reader st
  /\ match x with
     | Return true _ | Break _ => pending reader st1 < pending reader st
     | Return false _ => True
     end.
Proof.
  revert st. induction n as [|n IH]; intros st; [discriminate|]. simpl.
  destruct (NextPart reader st) as [[part|e] st2] eqn:P.
  - pose proof (NextPart_part_pending _ _ _ _ P) as D.
    destruct (newFileFromPart _ part _) as [[name cf] e].
    destruct e as [e|].
    + destruct e; try solve [intros H; inversion H; subst; split; [lia|exact I]].
      * intros H. inversion H. subst. split; lia.
      * intros H. destruct (IH _ H) as [L M]. split; [lia|].
        destruct x as [[]|]; auto; lia.
    + intros H. inversion H. subst. split; lia.
  - pose proof (NextPart_pending_le _ _ _ _ P) as D.
    destruct (error_eqb e io_EOF); intros H; inversion H; subst; auto.
Qed.

Lemma undo_pending reader part it st :
  pending reader (snd (undo reader part it st)) <= S (pending reader st).
Proof.
  unfold undo. destruct reader; simpl; [lia|].
  unfold put. destruct (next (peek st)) eqn:N; simpl; rewrite ?N; lia.
Qed.

Lemma Next_pending it st reader ok it1 st1 :
  Reader (f it) = Some reader ->
  Next it st = Some (ok, it1, st1) ->
  pending reader st1 <= pending reader st
  /\ (ok = true -> pending reader st1 < pending reader st).
Proof.
  intros R. unfold files.Next, files.Next_fuel. rewrite R.
  destruct (Next_loop (rounds st) reader it st) as [[[ok' i|part] s]|] eqn:L;
    [| |discriminate].
  - destruct (Next_loop_pending _ _ _ _ _ _ L) as [A B].
    intros H. inversion H. subst. split; [exact A|]. intros ->. exact B.
  - destruct (Next_loop_pending _ _ _ _ _ _ L) as [A B].
    pose proof (undo_pending reader part it s) as U.
    destruct (undo reader part it s) as [[ok' i] s'] eqn:E. simpl in U.
    intros H. inversion H. subst. split; [lia|].
    unfold undo in E. destruct reader; [|destruct (put part s)]; inversion E; subst;
      discriminate.
Qed.

(** X8. An advance only moves forward: the number of parts the reader
    can still hand out never grows, and it shrinks when the advance returns
    true. *)
Theorem Next_progress (it it1 : multipartIterator) (st st1 : Store)
        (reader : PartReader) (ok : bool) :
  Reader (f it) = Some reader ->
  Next it st = Some (ok, it1, st1) ->
  pending reader st1 <= pending reader st
  /\ (ok = true -> pending reader st1 < pending reader st).
Proof. apply Next_pending. Qed.

(** X9. Without the buffer there is no way back: an iterator that reads
    from the source itself loses the part that is outside its directory, and
    stores the error "cannot undo NextPart". *)
Theorem Next_outside_parent_raw (it : multipartIterator) (st st1 : Store) (part : Part) :
  Reader (f it) = Some RawReader ->
  NextPart RawReader st = (inl part, st1) ->
  snd (newFileFromPart (fileName (f it)) part (Reader (f it))) = Some ErrPartOutsideParent ->
  Next it st = Some (false, set_err it (Some (errors_New "cannot undo NextPart")), st1)
  /\ script (source st) = inl part :: script (source st1)
  /\ peek st1 = peek st.
Proof.
  intros R P C. split.
  - rewrite (Next_stop ParseMediaType it st RawReader part st1 R P C). reflexivity.
  - simpl in P. unfold Source_NextPart in P.
    destruct (script (source st)) as [|x rest]; inversion P; subst. auto.
Qed.

(** X10. When the source answers with an error, the advance calls it
    once and returns false.  An error other than end-of-input is stored and
    the results after it are still to come; end-of-input is not stored, and
    the buffer hands out nothing afterwards, whatever the source had
    left. *)
Theorem Next_source_failure (it : multipartIterator) (st : Store) (e : error)
        (rest : list (Part + error)) :
  Reader (f it) = Some PeekReader ->
  stream st = inr e :: rest ->
  exists st1,
    Next it st = Some (false, if error_eqb e io_EOF then it else set_err it (Some e), st1)
    /\ calls (source st1) = S (calls (source st))
    /\ stream st1 = (if error_eqb e io_EOF then [] else rest).
Proof.
  intros R Hs. destruct (stream_error _ _ _ Hs) as (N & Rr & Sc).
  assert (P : exists st1, peekReader_NextPart st = (inr e, st1)
                          /\ calls (source st1) = S (calls (source st))
                          /\ stream st1 = (if error_eqb e io_EOF then [] else rest)).
  { unfold peekReader_NextPart, Source_NextPart. rewrite N, Rr, Sc.
    destruct e; eexists; (split; [reflexivity|]); unfold stream; simpl;
      rewrite ?N, ?Rr; auto. }
  destruct P as (st1 & P & Cl & S1). exists st1. split; [|auto].
  apply (Next_source_error ParseMediaType it st PeekReader e st1 R P).
Qed.

(** X11. What an advance does on a stream of parts: it drops the
    leading parts that are in-child-tree; at the end of the stream it returns
    false and leaves the iterator as it is; at a part outside the directory
    it returns false with no error and that part stays first; otherwise it
    consumes the part and returns its entry, or false with the error of the
    classifier. *)
Theorem Next_on_part_stream (it : multipartIterator) (st : Store) (ps : list Part) :
  Reader (f it) = Some PeekReader ->
  stream st = map inl ps ->
  match skip_child_tree (fileName (f it)) (Reader (f it)) ps with
  | [] => exists st1, Next it st = Some (false, it, st1) /\ stream st1 = []
  | q :: rest =>
      match newFileFromPart (fileName (f it)) q (Reader (f it)) with
      | (_, _, Some ErrPartOutsideParent) =>
          exists st1, Next it st = Some (false, set_err it None, st1)
                      /\ stream st1 = map inl (q :: rest)
      | (name, cf, e) =>
          exists st1,
            Next it st
            = Some (match e with None => true | Some _ => false end,
                    {| f := f it; curFile := cf; curName := name; err := e |}, st1)
            /\ stream st1 = map inl rest
      end
  end.
Proof.
  intros R. revert st. induction ps as [|p ps IH]; intros st Hs; simpl.
  - now apply Next_at_end.
  - simpl in Hs.
    destruct (newFileFromPart (fileName (f it)) p (Reader (f it))) as [[name cf] e] eqn:C.
    simpl.
    assert (K : forall e', e = Some e' -> e' <> ErrPartOutsideParent ->
                           e' <> ErrPartInChildTree -> ~ scope_error e).
    { intros e' -> N1 N2 [H|H]; congruence. }
    destruct (stream_pull _ _ _ Hs) as (st1 & P & S1 & N).
    destruct e as [e|].
    + destruct e;
        try solve [rewrite C;
                   exists st1; split; [|exact S1];
                   apply (Next_entry ParseMediaType it st PeekReader p st1 _ _ _ R P C);
                   eapply K; [reflexivity|discriminate|discriminate]].
      * rewrite C. apply Next_at_outside; auto. now rewrite C.
      * assert (D : Next it st = Next it st1).
        { apply (Next_discard ParseMediaType it st PeekReader p st1 R P). now rewrite C. }
        specialize (IH st1 S1).
        destruct (skip_child_tree (fileName (f it)) (Reader (f it)) ps) as [|q rest].
        -- now rewrite D.
        -- destruct (newFileFromPart (fileName (f it)) q (Reader (f it)))
             as [[name' cf'] e']. now rewrite D.
    + rewrite C. exists st1. split; [|exact S1].
      apply (Next_entry ParseMediaType it st PeekReader p st1 _ _ _ R P C).
      intros [H|H]; discriminate.
Qed.

Lemma root_never_outside it part :
  normalize (fileName (f it)) = "" ->
  snd (newFileFromPart (fileName (f it)) part (Reader (f it))) <> Some ErrPartOutsideParent.
Proof.
  intros Z.
  destruct (String.eqb (declared_dir part) (normalize (fileName (f it)))) eqn:E.
  - pose proof (newFileFromPart_direct ParseMediaType _ _ (Reader (f it)) E) as D.
    intros H. apply D. now right.
  - rewrite (newFileFromPart_outside ParseMediaType _ _ _ E). simpl.
    rewrite Z. unfold HasPrefix. rewrite prefix_empty. discriminate.
Qed.

(** X12. The root directory ends only at the end of the input: no part
    is outside-parent for the empty path, so an advance of a root iterator
    that returns false without error has read the stream to its end. *)
Theorem root_ends_at_end_of_input (it it1 : multipartIterator) (st st1 : Store)
        (ps : list Part) :
  Reader (f it) = Some PeekReader ->
  normalize (fileName (f it)) = "" ->
  stream st = map inl ps ->
  Next it st = Some (false, it1, st1) ->
  Err it1 = None ->
  it1 = it /\ stream st1 = [] /\ next (peek st1) = None.
Proof.
  intros R Z. revert st. induction ps as [|p ps IH]; intros st Hs H E.
  - destruct (Next_at_end ParseMediaType it st R Hs) as (st' & N & S').
    rewrite N in H. inversion H. subst. repeat split; auto.
    unfold stream in S'. destruct (next (peek st1)); [discriminate|reflexivity].
  - simpl in Hs. destruct (stream_pull _ _ _ Hs) as (st2 & P & S2 & _).
    pose proof (root_never_outside it p Z) as NO.
    destruct (newFileFromPart (fileName (f it)) p (Reader (f it))) as [[name cf] e] eqn:C.
    simpl in NO.
    assert (IC : e = Some ErrPartInChildTree \/ ~ scope_error e).
    { destruct e as [[]|]; auto; right; intros [X|X]; congruence. }
    destruct IC as [->|NS].
    + rewrite (Next_discard ParseMediaType it st PeekReader p st2 R P) in H;
        [|now rewrite C].
      now apply (IH st2).
    + rewrite (Next_entry ParseMediaType it st PeekReader p st2 _ _ _ R P C NS) in H.
      inversion H. subst. unfold Err in E. simpl in E. subst. discriminate.
Qed.

(** X13. A directory can be listed only once: when the buffer has
    nothing more to hand out, every iterator that reads through it, old or
    new, returns false at once, both kinds of caller get no entry, and a
    further advance changes nothing. *)
Theorem drained_stream_lists_nothing (it : multipartIterator) (st : Store) (fuel : nat) :
  Reader (f it) = Some PeekReader ->
  stream st = [] ->
  exists st1,
    Next it st = Some (false, it, st1)
    /\ walk (S fuel) it st = Some ([], Err it, st1)
    /\ list_entries (S fuel) it st = Some ([], Err it, st1)
    /\ stream st1 = []
    /\ Next it st1 = Some (false, it, st1).
Proof.
  intros R Hs. destruct (stream_end _ Hs) as (st1 & P & S1).
  pose proof (Next_source_error ParseMediaType it st PeekReader io_EOF st1 R P) as N.
  simpl in N. destruct (peekReader_NextPart_EOF _ _ P) as [D1 D2].
  exists st1. simpl. rewrite N. repeat split; auto.
  rewrite (Next_source_error ParseMediaType it st1 PeekReader io_EOF st1 R); auto.
  now apply peekReader_NextPart_drained.
Qed.

Lemma walk_returns fuel :
  forall it st reader,
    Reader (f it) = Some reader ->
    pending reader st < fuel ->
    exists ys e st',
      walk fuel it st = Some (ys, e, st') /\ pending reader st' <= pending reader st.
Proof.
  induction fuel as [|fuel IH]; intros it st reader R L; [lia|].
  rewrite walk_unfold.
  destruct (Next_total ParseMediaType it st) as [[[ok it1] st1] N]. rewrite N.
  destruct (Next_pending it st reader ok it1 st1 R N) as [Le Lt].
  destruct ok; [|eauto].
  specialize (Lt eq_refl).
  destruct (Next_cases _ _ _ _ _ N) as [(_ & F & E & part & C)|[X|X]];
    [|destruct X; discriminate|destruct X; discriminate].
  pose proof (newFileFromPart_shape ParseMediaType (fileName (f it)) part (Reader (f it))) as Sh.
  rewrite C in Sh. destruct Sh as (_ & Nd & _).
  assert (R1 : Reader (f it1) = Some reader) by now rewrite F.
  destruct (curFile it1) as [node|] eqn:CF; [|congruence].
  assert (LEAF : exists ys e st',
             match walk fuel it1 st1 with
             | Some (rest, e, st2) =>
                 Some (Yield (entry_path (fileName (f it1)) (curName it1))
                             (node_kind node) [] :: rest, e, st2)
             | None => None
             end = Some (ys, e, st') /\ pending reader st' <= pending reader st).
  { destruct (IH it1 st1 reader R1 ltac:(lia)) as (ys & e & st' & W & P).
    rewrite W. do 3 eexists. split; [reflexivity|lia]. }
  destruct node as [rd ab|tg|d]; try exact LEAF.
  assert (Rd : Reader d = Some reader).
  { rewrite (Next_true_Dir ParseMediaType it st it1 st1 d N CF). exact R. }
  destruct (IH (Entries d) st1 reader Rd ltac:(lia)) as (ys & e & st2 & W & P).
  rewrite W. destruct e as [e|].
  - do 3 eexists. split; [reflexivity|lia].
  - destruct (IH it1 st2 reader R1 ltac:(lia)) as (ys' & e' & st3 & W' & P').
    rewrite W'. do 3 eexists. split; [reflexivity|lia].
Qed.

(** X16. The draining walk ends on every input, well formed or not:
    with fuel for one round more than the source has results, it returns. *)
Theorem walk_terminates (it : multipartIterator) (st : Store) (fuel : nat) :
  rounds st <= fuel -> exists res, walk fuel it st = Some res.
Proof.
  intros L. destruct (Reader (f it)) as [reader|] eqn:R.
  - pose proof (pending_rounds reader st) as P.
    destruct (walk_returns fuel it st reader R ltac:(lia)) as (ys & e & st' & W & _).
    eauto.
  - unfold rounds in L. destruct fuel as [|fuel]; [lia|].
    rewrite walk_unfold. unfold files.Next, files.Next_fuel. rewrite R. eauto.
Qed.

End MoreIterator.

(** ** More on whole traversals *)

Section MoreTraversal.

Variable ParseMediaType : string -> string * option nat.

Local Abbreviation newFileFromPart := (files.newFileFromPart ParseMediaType).
Local Abbreviation Next := (files.Next ParseMediaType).
Local Abbreviation list_entries := (iterator.list_entries ParseMediaType).
Local Abbreviation part_kind := (files.part_kind ParseMediaType).
Local Abbreviation kind_of := (files.kind_of ParseMediaType).
Local Abbreviation wf_tree := (files.wf_tree ParseMediaType).

(** X5. For paths made of proper names the classifier decides by the
    lists of names: a part is a direct child exactly when its directory is
    the current one; it is in-child-tree when its directory lies below the
    current one, and outside-parent when the current directory lies below
    the directory of the part. *)
Theorem newFileFromPart_proper_paths (ds cur : list string) (part : Part)
        (reader : option PartReader) :
  forallb wf_name ds = true ->
  forallb wf_name cur = true ->
  fileName_of (Some part) = dir_path (ds ++ [base_name part]) ->
  let e := snd (newFileFromPart (dir_path cur) part reader) in
  (~ scope_error e <-> ds = cur)
  /\ (forall ms, ms <> [] -> ds = cur ++ ms -> e = Some ErrPartInChildTree)
  /\ (forall ms, ms <> [] -> cur = ds ++ ms -> e = Some ErrPartOutsideParent).
Proof.
  intros W Wc F e. subst e.
  pose proof (wf_declared_dir ds part W F) as D.
  pose proof (normalize_dir_path cur Wc) as Nc.
  split; [|split].
  - split.
    + intros NS.
      destruct (String.eqb (declared_dir part) (normalize (dir_path cur))) eqn:E.
      * apply String.eqb_eq in E. rewrite D, Nc in E. now apply dir_path_inj.
      * exfalso. apply NS.
        rewrite (newFileFromPart_outside ParseMediaType _ _ _ E). simpl.
        destruct (HasPrefix _ _); [now left|now right].
    + intros ->. apply newFileFromPart_direct. rewrite D, Nc. apply String.eqb_refl.
  - intros ms N ->.
    destruct (dir_path_below cur ms W N) as [E P].
    assert (E' : String.eqb (declared_dir part) (normalize (dir_path cur)) = false)
      by (rewrite D, Nc; exact E).
    rewrite (newFileFromPart_outside ParseMediaType _ _ _ E'). simpl.
    now rewrite D, Nc, P.
  - intros ms N ->.
    rewrite forallb_app in Wc. apply andb_true_iff in Wc. destruct Wc as [_ Wm].
    pose proof (dir_path_below_length ds ms Wm N) as L.
    assert (L' : String.length (declared_dir part)
                 < String.length (normalize (dir_path (ds ++ ms))))
      by (rewrite D, Nc; exact L).
    destruct (shorter_outside _ _ L') as [E P].
    rewrite (newFileFromPart_outside ParseMediaType _ _ _ E). simpl. now rewrite P.
Qed.

(** Every part of a well-formed entry declares the directory of the
    entry or a directory below it. *)
Lemma parts_below (t : tree) :
  forall ds q,
    forallb wf_name ds = true -> wf_tree ds t = true -> In q (parts_of t) ->
    exists ms, forallb wf_name (ds ++ ms) = true /\ declared_dir q = dir_path (ds ++ ms).
Proof.
  revert t. fix IH 1. intros [p cs] ds q W T I.
  destruct (wf_tree_inv ParseMediaType _ _ _ T) as (Wn & F & k & K & Kcs).
  simpl in I. destruct I as [<-|I].
  - exists []. rewrite app_nil_r. split; [exact W|]. now apply wf_declared_dir.
  - destruct k; try (subst cs; contradiction).
    assert (W' : forallb wf_name (ds ++ [base_name p]) = true).
    { rewrite forallb_app. simpl. now rewrite W, Wn. }
    clear T K F. revert Kcs I.
    induction cs as [|c cs IHcs]; simpl; [contradiction|].
    intros Kcs I. apply andb_true_iff in Kcs. destruct Kcs as [Tc Tcs].
    apply in_app_or in I. destruct I as [I|I].
    + destruct (IH c (ds ++ [base_name p]) q W' Tc I) as (ms & Wm & D).
      exists (base_name p :: ms). rewrite <- app_assoc in Wm, D. auto.
    + now apply IHcs.
Qed.

Lemma children_in_child_tree ds p cs reader :
  forallb wf_name ds = true -> wf_tree ds (Entry p cs) = true ->
  Forall (fun q => snd (newFileFromPart (dir_path ds) q reader) = Some ErrPartInChildTree)
         (flat_map parts_of cs).
Proof.
  intros W T. apply Forall_forall. intros q I.
  destruct (wf_tree_inv ParseMediaType _ _ _ T) as (Wn & F & k & K & Kcs).
  destruct k; try (subst cs; contradiction).
  assert (W' : forallb wf_name (ds ++ [base_name p]) = true).
  { rewrite forallb_app. simpl. now rewrite W, Wn. }
  apply in_flat_map in I. destruct I as (c & Ic & Iq).
  pose proof (proj1 (forallb_forall _ _) Kcs c Ic) as Tc.
  destruct (parts_below c _ q W' Tc Iq) as (ms & Wm & D).
  rewrite <- app_assoc in Wm, D. simpl in Wm, D.
  destruct (dir_path_below ds (base_name p :: ms) Wm ltac:(discriminate)) as [E P].
  assert (E' : String.eqb (declared_dir q) (normalize (dir_path ds)) = false)
    by (rewrite D, (normalize_dir_path ds W); exact E).
  rewrite (newFileFromPart_outside ParseMediaType _ _ _ E'). simpl.
  now rewrite D, (normalize_dir_path ds W), P.
Qed.

Lemma Next_discard_run it st ps rest :
  Reader (f it) = Some PeekReader ->
  stream st = map inl ps ++ rest ->
  Forall (fun q => snd (newFileFromPart (fileName (f it)) q (Reader (f it)))
                   = Some ErrPartInChildTree) ps ->
  exists st1, Next it st = Next it st1 /\ stream st1 = rest.
Proof.
  intros R. revert st. induction ps as [|p ps IH]; intros st Hs A.
  - exists st. auto.
  - inversion A as [|? ? C A']. subst. simpl in Hs.
    destruct (stream_pull _ _ _ Hs) as (st1 & P & S1 & _).
    destruct (IH st1 S1 A') as (st2 & E & S2).
    exists st2. split; [|exact S2].
    rewrite <- E. eapply Next_discard; eauto.
Qed.

Lemma list_entries_unfold fuel it st :
  list_entries (S fuel) it st =
  match Next it st with
  | None => None
  | Some (false, it1, st1) => Some ([], Err it1, st1)
  | Some (true, it1, st1) =>
      match Node_ it1 with
      | None => None
      | Some node =>
          match list_entries fuel it1 st1 with
          | None => None
          | Some (rest, e, st2) => Some ((Name it1, node_kind node) :: rest, e, st2)
          end
      end
  end.
Proof. reflexivity. Qed.

Lemma list_entries_forest (ts : list tree) :
  forall junk ds R it st fuel,
    forallb wf_name ds = true ->
    forallb (wf_tree ds) ts = true ->
    stops (dir_path ds) R ->
    Reader (f it) = Some PeekReader ->
    fileName (f it) = dir_path ds ->
    err it = None ->
    Forall (fun q => snd (newFileFromPart (dir_path ds) q (Some PeekReader))
                     = Some ErrPartInChildTree) junk ->
    stream st = map inl (junk ++ flat_map parts_of ts ++ R) ->
    List.length ts < fuel ->
    exists st',
      list_entries fuel it st
      = Some (map (fun t => (base_name (top_part t), kind_of (top_part t))) ts, None, st')
      /\ stream st' = map inl R.
Proof.
  induction ts as [|[p cs] ts IH]; intros junk ds R it st fuel W T Sp Rd F E J Hs Hf;
    (destruct fuel as [|fuel]; [simpl in Hf; lia|]);
    rewrite list_entries_unfold;
    rewrite map_app in Hs;
    (destruct (Next_discard_run it st junk _ Rd Hs) as (st0 & D & S0);
     [now rewrite F, Rd|]);
    rewrite D; simpl in S0.
  - destruct R as [|q R]; simpl in S0.
    + destruct (Next_at_end ParseMediaType it st0 Rd S0) as (st1 & N & S1).
      rewrite N. exists st1. unfold Err. rewrite E. auto.
    + simpl in Sp.
      assert (C : snd (newFileFromPart (fileName (f it)) q (Reader (f it)))
                  = Some ErrPartOutsideParent).
      { rewrite <- (normalize_dir_path ds W), <- F in Sp.
        destruct (shorter_outside _ _ Sp) as [NE NP].
        rewrite (newFileFromPart_outside ParseMediaType _ _ _ NE), NP. reflexivity. }
      destruct (Next_at_outside ParseMediaType it st0 q _ Rd S0 C) as (st2 & N & S2).
      rewrite N. exists st2. auto.
  - simpl in T. apply andb_true_iff in T. destruct T as [Tp Tts].
    change (wf_tree ds (Entry p cs) = true) in Tp.
    destruct (wf_tree_inv ParseMediaType _ _ _ Tp) as (Wn & Fp & k & K & Kcs).
    pose proof (wf_declared_dir _ _ W Fp) as Dd.
    assert (D' : declared_dir p = normalize (fileName (f it))).
    { now rewrite F, normalize_dir_path. }
    destruct (newFileFromPart_kind ParseMediaType (fileName (f it)) p (Reader (f it)) k D' K)
      as (node & C & NK & _).
    rewrite <- app_assoc in S0.
    destruct (Next_at_child ParseMediaType it st0 p _ _ _ Rd S0 C) as (st1 & N & S1).
    rewrite N. unfold Node_, Name. cbn [curFile curName].
    destruct (IH (flat_map parts_of cs) ds R
                {| f := f it; curFile := Some node; curName := base_name p; err := None |}
                st1 fuel W Tts Sp Rd F eq_refl
                (children_in_child_tree ds p cs (Some PeekReader) W Tp) S1
                ltac:(simpl in Hf; lia)) as (st' & L & S').
    rewrite L. exists st'. split; [|exact S'].
    simpl. unfold files.kind_of. rewrite K, NK. reflexivity.
Qed.

(** X17. A caller that lists the root of a well-formed part sequence
    without opening any directory gets the top-level entries, by name and
    kind, in order and without error: the parts of the directories it did
    not open are dropped, and the source is read to its end. *)
Theorem list_entries_well_formed (ts : list tree) (mediatype : string) (st0 st1 : Store)
        (root : MultipartFile) (fuel : nat) :
  wf_forest ParseMediaType ts = true ->
  script (source st0) = map inl (flat_map parts_of ts) ->
  NewFileFromPartReader mediatype st0 = (inl root, st1) ->
  List.length ts < fuel ->
  exists st2,
    list_entries fuel (Entries root) st1
    = Some (map (fun t => (base_name (top_part t), kind_of (top_part t))) ts, None, st2)
    /\ stream st2 = [].
Proof.
  intros W Sc N Hf. unfold NewFileFromPartReader in N.
  destruct (negb (isDirectory mediatype)); [discriminate|].
  inversion N. subst. clear N.
  apply (list_entries_forest ts [] [] []); auto.
  - exact I.
  - unfold stream. simpl. now rewrite Sc, app_nil_r.
Qed.

End MoreTraversal.

(** ** Worked examples for the further properties *)

Import more_samples.

Lemma fileName_plain_witness :
  contains "%" (FileName file_ax) = false /\
  contains "+" (FileName file_ax) = false /\
  fileName_of (Some file_ax) = "a/x.txt".
Proof.
  split; [reflexivity|]. split; [reflexivity|].
  exact (proj1 (fileName_plain file_ax) eq_refl eq_refl).
Defined.

Lemma newFileFromPart_directory_witness :
  newFileFromPart mime.ParseMediaType "" dir_a (Some PeekReader)
  = ("a", Some (Dir node_a), None) /\
  fileName node_a = "a" /\ isDirectory (Mediatype node_a) = true.
Proof.
  split; [reflexivity|].
  destruct (newFileFromPart_directory mime.ParseMediaType "" "a" dir_a (Some PeekReader)
              node_a None eq_refl) as (_ & _ & _ & I & _ & F & _).
  split; [exact F | exact I].
Defined.

Lemma newFileFromPart_proper_paths_witness :
  forallb wf_name ["a"] = true /\
  fileName_of (Some file_ax) = dir_path (["a"] ++ [base_name file_ax]) /\
  snd (newFileFromPart mime.ParseMediaType (dir_path []) file_ax (Some PeekReader))
  = Some ErrPartInChildTree /\
  snd (newFileFromPart mime.ParseMediaType (dir_path ["a"; "b"]) file_ax (Some PeekReader))
  = Some ErrPartOutsideParent.
Proof.
  split; [reflexivity|]. split; [reflexivity|]. split.
  - exact (proj1 (proj2 (newFileFromPart_proper_paths mime.ParseMediaType ["a"] []
                           file_ax (Some PeekReader) eq_refl eq_refl eq_refl))
                 ["a"] ltac:(discriminate) eq_refl).
  - exact (proj2 (proj2 (newFileFromPart_proper_paths mime.ParseMediaType ["a"] ["a"; "b"]
                           file_ax (Some PeekReader) eq_refl eq_refl eq_refl))
                 ["b"] ltac:(discriminate) eq_refl).
Defined.

Lemma Next_true_contract_witness :
  let it1 := {| f := root; curFile := Some (ReaderFile file_b ""); curName := "b.txt";
                err := None |} in
  Next mime.ParseMediaType (Entries root) (opened [file_b])
  = Some (true, it1, advanced 1 (opened [file_b])) /\
  Err it1 = None /\ contains slash (Name it1) = false.
Proof.
  cbv zeta. split; [reflexivity|].
  destruct (Next_true_contract mime.ParseMediaType (Entries root) _ (opened [file_b]) _
              eq_refl) as (_ & E & _ & N).
  split; [exact E | exact N].
Defined.

Lemma Next_false_entry_witness :
  let it1 := {| f := root; curFile := None; curName := ""; err := Some (LibError 2) |} in
  Next mime.ParseMediaType (Entries root) (opened [bad])
  = Some (false, it1, advanced 1 (opened [bad])) /\
  f it1 = root.
Proof.
  cbv zeta. split; [reflexivity|].
  exact (proj1 (Next_false_entry mime.ParseMediaType (Entries root) _ (opened [bad]) _
                  eq_refl)).
Defined.

Lemma Next_progress_witness :
  Reader (f (Entries root)) = Some PeekReader /\
  pending PeekReader (advanced 3 (opened [file_ax; file_ay; file_b]))
  < pending PeekReader (opened [file_ax; file_ay; file_b]).
Proof.
  split; [reflexivity|].
  exact (proj2 (Next_progress mime.ParseMediaType (Entries root)
                  {| f := root; curFile := Some (ReaderFile file_b ""); curName := "b.txt";
                     err := None |}
                  (opened [file_ax; file_ay; file_b]) _ PeekReader true eq_refl eq_refl)
               eq_refl).
Defined.

Lemma Next_outside_parent_raw_witness :
  Reader (f (Entries node_a_raw)) = Some RawReader /\
  NextPart RawReader (opened [file_b]) = (inl file_b, advanced 1 (opened [file_b])) /\
  Next mime.ParseMediaType (Entries node_a_raw) (opened [file_b])
  = Some (false,
          set_err (Entries node_a_raw) (Some (errors_New "cannot undo NextPart")),
          advanced 1 (opened [file_b])).
Proof.
  split; [reflexivity|]. split; [reflexivity|].
  exact (proj1 (Next_outside_parent_raw mime.ParseMediaType (Entries node_a_raw)
                  (opened [file_b]) _ file_b eq_refl eq_refl eq_refl)).
Defined.

Lemma Next_source_failure_witness :
  Reader (f (Entries root)) = Some PeekReader /\
  stream failing = [inr (LibError 7); inl file_b] /\
  exists st1,
    Next mime.ParseMediaType (Entries root) failing
    = Some (false, set_err (Entries root) (Some (LibError 7)), st1)
    /\ stream st1 = [inl file_b].
Proof.
  split; [reflexivity|]. split; [reflexivity|].
  destruct (Next_source_failure mime.ParseMediaType (Entries root) failing (LibError 7)
              [inl file_b] eq_refl eq_refl) as (st1 & N & _ & S1).
  exists st1. split; [exact N | exact S1].
Defined.

Lemma Next_on_part_stream_witness :
  Reader (f (Entries node_a)) = Some PeekReader /\
  stream (opened [file_b]) = map inl [file_b] /\
  exists st1,
    Next mime.ParseMediaType (Entries node_a) (opened [file_b])
    = Some (false, set_err (Entries node_a) None, st1)
    /\ stream st1 = [inl file_b].
Proof.
  split; [reflexivity|]. split; [reflexivity|].
  exact (Next_on_part_stream mime.ParseMediaType (Entries node_a) (opened [file_b])
           [file_b] eq_refl eq_refl).
Defined.

Lemma root_ends_at_end_of_input_witness :
  Reader (f (Entries root)) = Some PeekReader /\
  normalize (fileName (f (Entries root))) = "" /\
  Next mime.ParseMediaType (Entries root) (opened [file_ax]) = Some (false, Entries root, ended 2) /\
  stream (ended 2) = [].
Proof.
  split; [reflexivity|]. split; [reflexivity|]. split; [reflexivity|].
  exact (proj1 (proj2 (root_ends_at_end_of_input mime.ParseMediaType (Entries root) _
                         (opened [file_ax]) (ended 2) [file_ax]
                         eq_refl eq_refl eq_refl eq_refl eq_refl))).
Defined.

Lemma drained_stream_lists_nothing_witness :
  Reader (f (Entries node_a)) = Some PeekReader /\
  stream (ended 2) = [] /\
  exists st1,
    walk mime.ParseMediaType 1 (Entries node_a) (ended 2) = Some ([], None, st1)
    /\ list_entries mime.ParseMediaType 1 (Entries node_a) (ended 2) = Some ([], None, st1).
Proof.
  split; [reflexivity|]. split; [reflexivity|].
  destruct (drained_stream_lists_nothing mime.ParseMediaType (Entries node_a) (ended 2) 0
              eq_refl eq_refl) as (st1 & _ & W & L & _).
  exists st1. split; [exact W | exact L].
Defined.

Lemma NextPart_put_undo_witness :
  peekReader_NextPart (pushed_back file_b (opened [file_ax]))
  = (inl file_b, opened [file_ax]) /\
  snd (put file_b (opened [file_ax])) = pushed_back file_b (opened [file_ax]).
Proof.
  split; [reflexivity|].
  exact (proj2 (proj2 (proj2 (NextPart_put_undo (pushed_back file_b (opened [file_ax]))
                                (opened [file_ax]) file_b eq_refl)))
               ltac:(discriminate)).
Defined.

Lemma pulls_in_order_witness :
  stream (pushed_back file_b (opened [file_ax; file_ay]))
  = map inl [file_b; file_ax] ++ [inl file_ay] /\
  exists st',
    pulls 2 (pushed_back file_b (opened [file_ax; file_ay]))
    = ([inl file_b; inl file_ax], st')
    /\ stream st' = [inl file_ay].
Proof.
  split; [reflexivity|].
  exact (pulls_in_order [file_b; file_ax] [inl file_ay]
           (pushed_back file_b (opened [file_ax; file_ay])) eq_refl).
Defined.

Lemma walk_terminates_witness :
  rounds (opened [file_ax; dir_a; bad]) <= 5 /\
  exists res,
    walk mime.ParseMediaType 5 (Entries root) (opened [file_ax; dir_a; bad]) = Some res.
Proof.
  split; [vm_compute; lia|].
  apply (walk_terminates mime.ParseMediaType (Entries root)
           (opened [file_ax; dir_a; bad]) 5).
  vm_compute. lia.
Defined.

Lemma list_entries_well_formed_witness :
  wf_forest mime.ParseMediaType forest = true /\
  exists st2,
    list_entries mime.ParseMediaType 5 (Entries root) (opened (flat_map parts_of forest))
    = Some ([("a", KDirectory); ("link", KSymlink); ("index.html", KFile);
             ("b.txt", KFile)], None, st2)
    /\ stream st2 = [].
Proof.
  split; [reflexivity|].
  apply (list_entries_well_formed mime.ParseMediaType forest multipartFormdataType
           (fresh_store (flat_map parts_of forest))
           (opened (flat_map parts_of forest)) root 5 eq_refl eq_refl eq_refl).
  simpl. lia.
Defined.
